(** * benchdnn graph driver: the partition input displacer

    A shallow embedding of [tests/benchdnn/graph/input_displacer.cpp]:
    the constructor of [partition_data_displacer_t], which scans a partition
    for the dequantize operations whose input has to be filled with
    quantization-friendly data, and [displace_input_data] with its helper
    [gen_quantize_filling], which produce that data through the reference
    primitives. *)

From Stdlib Require Import ZArith Lia List.
From stdpp Require Import gmap strings list fin_maps.

Local Open Scope string_scope.

(** ** Data model *)

(** Logical tensors.  The driver reads [id_] and [data_type_]; the shape is
    carried along with the descriptor. *)
Module LT.
Record deserialized_lt := mk {
  id_ : nat;
  data_type_ : string;
  shape_ : list Z
}.
End LT.
Abbreviation deserialized_lt := LT.deserialized_lt.

(** Attributes.  Only the 64-bit integer vector form is read or written by the
    displacer (the [order] of a StaticTranspose). *)
Record deserialized_attr := {
  type_ : string;
  s64_vector_ : list Z
}.

Module OP.
Record deserialized_op := mk {
  id_ : nat;
  name_ : string;
  kind_ : string;
  attrs_ : gmap string deserialized_attr;
  in_lts_ : list deserialized_lt;
  out_lts_ : list deserialized_lt
}.
End OP.
Abbreviation deserialized_op := OP.deserialized_op.

Record deserialized_graph := {
  ops_ : list deserialized_op
}.

(** Modelled from the spec: [deserialized_graph::get_op_by_out_lt] and
    [deserialized_op::empty] are declared in deserialize.hpp, which is not part
    of the sources at hand.  The spec's [producer_of] answers with the
    operation that has the tensor among its outputs, or with an explicit
    "none" (the empty operation of the source), here [None]. *)
Definition get_op_by_out_lt (dg : deserialized_graph) (out_lt_id : nat)
  : option deserialized_op :=
  List.find
    (fun op =>
       existsb (fun lt => Nat.eqb (LT.id_ lt) out_lt_id) (OP.out_lts_ op))
    (ops_ dg).

(** The two static kind tables of the constructor, spelled as in the source. *)
Definition main_op_kind : gset string :=
  list_to_set
    ["Convolution"; "ConvTranspose"; "AvgPool"; "MaxPool"; "MatMul"; "Add";
     "Divide"; "Maximum"; "Minimum"; "Multiply"; "Substract"].

Definition go_through_op_kind : gset string :=
  list_to_set
    ["StaticTranspose"; "StaticReshape"; "TypeCast"; "Quantize"; "Dequantize"].

(** One entry of [quantize_displace_]: the main op (by value), the offset of
    the input, and the tensor in front of the dequantize. *)
Abbreviation displace_t := (deserialized_op * nat * deserialized_lt)%type.

Record partition_data_displacer_t := {
  dg_ : option deserialized_graph;
  op_ids_set_ : gset nat;
  quantize_displace_ : gmap nat displace_t
}.

(** Ways a piece of the driver can end: normally with a value; by leaving the
    process through [exit] (the [SAFE_V] macro); on a failed [assert]; in
    undefined behaviour (element 0 of an empty vector); or not at all within
    the fuel given to a loop. *)
Inductive exec (A : Type) : Type :=
| Value (a : A)
| Exited (code : Z)
| Aborted
| UndefinedBehaviour
| OutOfFuel.
Arguments Value {A} a.
Arguments Exited {A} code.
Arguments Aborted {A}.
Arguments UndefinedBehaviour {A}.
Arguments OutOfFuel {A}.

Definition exec_bind {A B} (x : exec A) (f : A -> exec B) : exec B :=
  match x with
  | Value a => f a
  | Exited c => Exited c
  | Aborted => Aborted
  | UndefinedBehaviour => UndefinedBehaviour
  | OutOfFuel => OutOfFuel
  end.

#[global] Instance exec_mbind : MBind exec := fun A B f x => exec_bind x f.
#[global] Instance exec_mret : MRet exec := fun A a => Value a.

(** ** The constructor: scanning for dequantize boundaries *)

Section scanner.
Variable dg : deserialized_graph.
Variable op_ids : gset nat.

(** The test applied to the input of a dequantize: its producer is empty or
    not an op of the partition. *)
Definition no_predecessor_in_partition (lt_id : nat) : bool :=
  match get_op_by_out_lt dg lt_id with
  | None => true
  | Some prev_parent_op => bool_decide (OP.id_ prev_parent_op ∉ op_ids)
  end.

(** What one iteration of the inner [for (auto *lt = ...; true; ...)] loop
    does with the current tensor. *)
Inductive scan_step_t :=
| Emplace (parent_op_in_lt : deserialized_lt)
| Break
| Next (lt : deserialized_lt)
| Undefined.

Definition continue_on_allowed (parent_op : deserialized_op) : scan_step_t :=
  if bool_decide (OP.kind_ parent_op ∈ go_through_op_kind) then
    match OP.in_lts_ parent_op !! 0%nat with
    | Some lt => Next lt
    | None => Undefined
    end
  else Break.

Definition scan_step (lt_id : nat) : scan_step_t :=
  match get_op_by_out_lt dg lt_id with
  | None => Break
  | Some parent_op =>
      if String.eqb (OP.kind_ parent_op) "Dequantize" then
        match OP.in_lts_ parent_op !! 0%nat with
        | None => Undefined
        | Some parent_op_in_lt =>
            if no_predecessor_in_partition (LT.id_ parent_op_in_lt)
            then Emplace parent_op_in_lt
            else continue_on_allowed parent_op
        end
      else continue_on_allowed parent_op
  end.

(** The whole inner loop, started at the tensor with id [lt_id]. *)
Inductive walk_t :=
| Found (parent_op_in_lt : deserialized_lt)
| Stop
| Fault
| Diverge.

Fixpoint walk (fuel : nat) (lt_id : nat) : walk_t :=
  match fuel with
  | O => Diverge
  | S fuel' =>
      match scan_step lt_id with
      | Emplace parent_op_in_lt => Found parent_op_in_lt
      | Break => Stop
      | Next lt => walk fuel' (LT.id_ lt)
      | Undefined => Fault
      end
  end.

(** [unordered_map::emplace]: nothing happens when the key is present. *)
Definition emplace (k : nat) (v : displace_t) (m : gmap nat displace_t)
  : gmap nat displace_t :=
  match m !! k with
  | Some _ => m
  | None => <[k:=v]> m
  end.

(** A walk that ends does so within this many iterations (see
    [walk_fuel_enough]). *)
Definition scan_fuel : nat := S (length (ops_ dg)).

(** The body of [for (size_t i = 0; i < aop.in_lts_.size(); i++)]. *)
Definition scan_input (aop : deserialized_op) (i : nat) (lt : deserialized_lt)
    (m : gmap nat displace_t) : exec (gmap nat displace_t) :=
  match walk scan_fuel (LT.id_ lt) with
  | Found parent_op_in_lt =>
      Value (emplace (LT.id_ parent_op_in_lt) (aop, i, parent_op_in_lt) m)
  | Stop => Value m
  | Fault => UndefinedBehaviour
  | Diverge => OutOfFuel
  end.

Fixpoint scan_inputs (aop : deserialized_op) (i : nat)
    (lts : list deserialized_lt) (m : gmap nat displace_t)
  : exec (gmap nat displace_t) :=
  match lts with
  | [] => Value m
  | lt :: rest =>
      exec_bind (scan_input aop i lt m) (scan_inputs aop (S i) rest)
  end.

(** The outer [for (const auto &aop : dg_->ops_)]. *)
Fixpoint scan_ops (ops : list deserialized_op) (m : gmap nat displace_t)
  : exec (gmap nat displace_t) :=
  match ops with
  | [] => Value m
  | aop :: rest =>
      if bool_decide (OP.id_ aop ∉ op_ids) then scan_ops rest m
      else if bool_decide (OP.kind_ aop ∉ main_op_kind) then scan_ops rest m
      else exec_bind (scan_inputs aop 0 (OP.in_lts_ aop) m) (scan_ops rest)
  end.
End scanner.

(** [partition_data_displacer_t::partition_data_displacer_t(dg, par)], with the
    op ids of the partition as returned by [par.get_ops()]. *)
Definition partition_data_displacer_t_ctor (dg : deserialized_graph)
    (par_ops : list nat) : exec partition_data_displacer_t :=
  let op_ids_set : gset nat := list_to_set par_ops in
  exec_bind (scan_ops dg op_ids_set (ops_ dg) ∅)
    (fun m => Value {| dg_ := Some dg; op_ids_set_ := op_ids_set;
                       quantize_displace_ := m |}).


(** ** Reference primitives and the displacement *)

(** Modelled from the spec: the result states of common.hpp, of which the
    displacer names [FAILED], [SKIPPED], [UNIMPLEMENTED] and
    [INVALID_ARGUMENTS]; a value-initialised [res_t] is [UNTESTED]. *)
Inductive res_state_t :=
| UNTESTED | PASSED | SKIPPED | MISTRUSTED | UNIMPLEMENTED
| INVALID_ARGUMENTS | FAILED | LISTED | INITIALIZED | EXECUTED.

#[global] Instance res_state_eq_dec : EqDecision res_state_t.
Proof. solve_decision. Defined.

Record res_t := { state : res_state_t }.

(** Modelled from the spec: the status codes [OK] and [FAIL] of common.hpp,
    the "ok" and "failed" of [displace]. *)
Definition OK : Z := 0.
Definition FAIL : Z := 1.

(** Modelled from the spec: the argument roles "source" and "destination" of
    a primitive ([DNNL_ARG_SRC], [DNNL_ARG_DST] of dnnl_types.h). *)
Definition DNNL_ARG_SRC : Z := 1.
Definition DNNL_ARG_DST : Z := 17.

(** Modelled from the spec: [opstr2kind].  The kinds that the switch of
    [displace_input_data] names are kept apart; every other kind keeps its
    string. *)
Module kind.
Inductive op_kind :=
| Quantize | Dequantize | StaticTranspose | TypeCast | StaticReshape
| Other (k : string).
End kind.

Definition opstr2kind (k : string) : kind.op_kind :=
  if String.eqb k "Quantize" then kind.Quantize
  else if String.eqb k "Dequantize" then kind.Dequantize
  else if String.eqb k "StaticTranspose" then kind.StaticTranspose
  else if String.eqb k "TypeCast" then kind.TypeCast
  else if String.eqb k "StaticReshape" then kind.StaticReshape
  else kind.Other k.

(** Modelled from the spec: the benchdnn drivers an op kind is run by
    ([dnnl_driver_t] of the graph utilities); [gen_quantize_filling] tells
    [pool] and [binary] from the others. *)
Inductive dnnl_driver_t :=
| binary | bnorm | concat | conv | custom | deconv | eltwise | lnorm | matmul
| pool | prelu | reduction | reorder_driver | resampling | softmax | others.

(** Modelled from the spec: a benchdnn memory ([dnn_mem_t]), a buffer made of
    a descriptor [md_] and the data it holds. *)
Record dnn_mem_t (md_t data_t : Type) := {
  md_ : md_t;
  data_ : data_t
}.
Arguments md_ {md_t data_t} _.
Arguments data_ {md_t data_t} _.

(** The reference primitive of an op ([ref_primitive_t]) and the other
    benchdnn services the displacer calls.  Each call is a function of the op
    the primitive was built from and of what the source passes in. *)
Class ref_backend := {
  md_t : Type;
  data_t : Type;
  (** the default-constructed [dnn_mem_t] *)
  empty_mem : dnn_mem_t md_t data_t;
  opkind2driver : kind.op_kind -> dnnl_driver_t;
  get_prim_arg_name_from_graph_op_input_offset : kind.op_kind -> nat -> Z;
  (** [init_prb(empty_set, res)] only updates [res] *)
  init_prb : deserialized_op -> res_t -> res_t;
  init_prim : deserialized_op -> res_t -> Z * res_t;
  init_ref_memory_args : deserialized_op -> res_t -> Z * res_t;
  (** [get_arg(arg)] once the memories are initialised *)
  get_arg : deserialized_op -> Z -> dnn_mem_t md_t data_t;
  (** [execute_prim(res)] with the given memory as [DNNL_ARG_SRC]; the last
      component is [get_arg(DNNL_ARG_DST)] afterwards *)
  execute_prim : deserialized_op -> dnn_mem_t md_t data_t -> res_t ->
                 Z * res_t * dnn_mem_t md_t data_t;
  (** [mem.reorder(src)]: the status and the new contents of [mem] *)
  reorder : dnn_mem_t md_t data_t -> dnn_mem_t md_t data_t ->
            Z * dnn_mem_t md_t data_t
}.

Abbreviation mem_t := (dnn_mem_t md_t data_t).

(** Modelled from the spec: the macro [SAFE_V] of common.hpp, under which a
    backend call that does not return [OK] is a hard failure: the process
    is left with code 2.  ([SAFE(f, WARN)], which returns the status of [f] to
    the caller, is written out where it is used.) *)
Definition SAFE_V {A} (r : Z * A) : exec A :=
  if bool_decide (r.1 = OK) then Value r.2 else Exited 2.

Definition set_data_type (dt : string) (lt : deserialized_lt)
  : deserialized_lt :=
  LT.mk (LT.id_ lt) dt (LT.shape_ lt).

Definition skipped_or_unimplemented (res : res_t) : bool :=
  bool_decide (state res = SKIPPED) || bool_decide (state res = UNIMPLEMENTED).

(** *** Inverting the order of a StaticTranspose *)

(** [size_t] and [int64_t] are 64 bits wide; [order[i] + ndims] is computed in
    [size_t]. *)
Definition size_t_wrap (z : Z) : Z := z mod 2 ^ 64.

Definition new_order_index (ndims : nat) (order_i : Z) : nat :=
  Z.to_nat (size_t_wrap (order_i + Z.of_nat ndims) mod Z.of_nat ndims).

(** [for (size_t i = 0; i < ndims; i++) new_order[...] = i], with the entries
    of [order] from position [i] on still to be visited. *)
Fixpoint fill_new_order (ndims i : nat) (order : list Z) (new_order : list Z)
  : list Z :=
  match order with
  | [] => new_order
  | order_i :: rest =>
      fill_new_order ndims (S i) rest
        (<[new_order_index ndims order_i := Z.of_nat i]> new_order)
  end.

Definition invert_order (order : list Z) : list Z :=
  let ndims := length order in
  fill_new_order ndims 0 order (replicate ndims 0%Z).

Definition get_attr_s64_vector (op : deserialized_op) (attr_name : string)
  : list Z :=
  match OP.attrs_ op !! attr_name with
  | Some a => s64_vector_ a
  | None => []
  end.

(** [op.attrs_[name].s64_vector_ = v]: [operator[]] makes a fresh attribute
    when there is none. *)
Definition set_attr_s64_vector (op : deserialized_op) (attr_name : string)
    (v : list Z) : deserialized_op :=
  let a := default {| type_ := ""; s64_vector_ := [] |}
             (OP.attrs_ op !! attr_name) in
  OP.mk (OP.id_ op) (OP.name_ op) (OP.kind_ op)
    (<[attr_name := {| type_ := type_ a; s64_vector_ := v |}]> (OP.attrs_ op))
    (OP.in_lts_ op) (OP.out_lts_ op).

Definition set_kind (op : deserialized_op) (k : string) : deserialized_op :=
  OP.mk (OP.id_ op) (OP.name_ op) k (OP.attrs_ op) (OP.in_lts_ op)
    (OP.out_lts_ op).

Definition swap_lts (op : deserialized_op) : deserialized_op :=
  OP.mk (OP.id_ op) (OP.name_ op) (OP.kind_ op) (OP.attrs_ op) (OP.out_lts_ op)
    (OP.in_lts_ op).

(** The [switch (opkind)] of the reverse job, applied to the copy of the op
    whose tensors have been swapped; [None] is the [default:] label. *)
Definition reverse_op (op : deserialized_op) : option deserialized_op :=
  match opstr2kind (OP.kind_ op) with
  | kind.Quantize => Some (set_kind op "Dequantize")
  | kind.Dequantize => Some (set_kind op "Quantize")
  | kind.StaticTranspose =>
      let order := get_attr_s64_vector op "order" in
      Some (set_attr_s64_vector op "order" (invert_order order))
  | kind.TypeCast | kind.StaticReshape => Some op
  | kind.Other _ => None
  end.

Section displacer.
Context `{backend : ref_backend}.

(** Whether the driver is compiled with [NDEBUG], which turns [assert] into
    nothing. *)
Variable NDEBUG : bool.

Definition is_conv_like (k : string) : bool :=
  String.eqb k "MatMul" || String.eqb k "Convolution"
  || String.eqb k "ConvTranspose".

(** The clone of the main op with the data types of [gen_quantize_filling];
    undefined when the op has no input or no output. *)
Definition quantize_filling_op (main_op : deserialized_op) (dt : string)
  : exec deserialized_op :=
  let driver := opkind2driver (opstr2kind (OP.kind_ main_op)) in
  match OP.in_lts_ main_op !! 0%nat, OP.out_lts_ main_op !! 0%nat with
  | Some in0, Some out0 =>
      let in_lts := <[0%nat := set_data_type dt in0]> (OP.in_lts_ main_op) in
      let in_lts :=
        match in_lts !! 1%nat with
        | Some in1 =>
            let dt1 := if is_conv_like (OP.kind_ main_op) && String.eqb dt "u8"
                       then "s8" else dt in
            <[1%nat := set_data_type dt1 in1]> in_lts
        | None => in_lts
        end in
      let out0 :=
        match driver with
        | pool | binary => set_data_type dt out0
        | _ => if negb (String.eqb (LT.data_type_ out0) "bf16")
               then set_data_type "f32" out0 else out0
        end in
      Value (OP.mk (OP.id_ main_op) (OP.name_ main_op) (OP.kind_ main_op)
               (OP.attrs_ main_op) in_lts
               (<[0%nat := out0]> (OP.out_lts_ main_op)))
  | _, _ => UndefinedBehaviour
  end.

(** [gen_quantize_filling(main_op, arg, mem, dt, res)]: the returned status,
    and [mem] and [res] as they are on return. *)
Definition gen_quantize_filling (main_op : deserialized_op) (arg : Z)
    (mem : mem_t) (dt : string) (res : res_t) : exec (Z * mem_t * res_t) :=
  op ← quantize_filling_op main_op dt;
  let res := init_prb op res in
  if bool_decide (state res = INVALID_ARGUMENTS) then Value (FAIL, mem, res)
  else
    res ← SAFE_V (init_prim op res);
    if skipped_or_unimplemented res then Value (OK, mem, res)
    else
      res ← SAFE_V (init_ref_memory_args op res);
      if skipped_or_unimplemented res then Value (OK, mem, res)
      else Value (OK, get_arg op arg, res).

(** The [while] loop of [displace_input_data]: [inl status] when the body
    returns from the function, [inr mem_replace] when the loop is left.  The
    fuel is the number of times the body may still be run; the condition of
    the loop is tested without fuel. *)
Fixpoint reverse_job (fuel : nat) (dg : deserialized_graph)
    (op_ids : gset nat) (tensor : deserialized_lt) (mem_replace : mem_t)
  : exec (Z + mem_t) :=
  match get_op_by_out_lt dg (LT.id_ tensor) with
  | None => Value (inr mem_replace)
  | Some parent_op =>
      if bool_decide (OP.id_ parent_op ∉ op_ids) then Value (inr mem_replace)
      else
        match fuel with
        | O => OutOfFuel
        | S fuel' =>
            match reverse_op (swap_lts parent_op) with
            | None => if NDEBUG then Value (inl FAIL) else Aborted
            | Some op =>
                let res := init_prb op {| state := UNTESTED |} in
                res ← SAFE_V (init_prim op res);
                res ← SAFE_V (init_ref_memory_args op res);
                let src := {| md_ := md_ (get_arg op DNNL_ARG_SRC);
                              data_ := data_ mem_replace |} in
                '(res, dst) ←
                  SAFE_V (let '(s, r, d) := execute_prim op src res in
                          (s, (r, d)));
                match OP.out_lts_ op !! 0%nat with
                | None => UndefinedBehaviour
                | Some tensor' => reverse_job fuel' dg op_ids tensor' dst
                end
            end
        end
  end.

(** [displace_input_data(lt_id, mem, res)]: the returned status, and [mem]
    and [res] as they are on return. *)
Definition displace_input_data (d : partition_data_displacer_t)
    (lt_id : nat) (mem : mem_t) (res : res_t) : exec (Z * mem_t * res_t) :=
  match dg_ d with
  | None => Value (FAIL, mem, {| state := FAILED |})
  | Some dg =>
      match quantize_displace_ d !! lt_id with
      | None => Value (OK, mem, res)
      | Some (main_op, main_op_offset, tensor) =>
          let opkind := opstr2kind (OP.kind_ main_op) in
          let main_op_arg :=
            get_prim_arg_name_from_graph_op_input_offset opkind
              main_op_offset in
          '(status, mem_replace, res) ←
            gen_quantize_filling main_op main_op_arg empty_mem
              (LT.data_type_ tensor) res;
          if negb (bool_decide (status = OK)) then Value (status, mem, res)
          else if skipped_or_unimplemented res then Value (OK, mem, res)
          else
            r ← reverse_job (length (ops_ dg)) dg (op_ids_set_ d) tensor
                  mem_replace;
            match r with
            | inl status => Value (status, mem, res)
            | inr mem_replace =>
                let src := {| md_ := md_ mem; data_ := data_ mem_replace |} in
                let '(status, mem') := reorder mem src in
                if negb (bool_decide (status = OK))
                then Value (status, mem', res)
                else Value (OK, mem', res)
            end
      end
  end.
End displacer.

(** ** Runs of the inner loop *)

Section scan_runs.
Variable dg : deserialized_graph.
Variable op_ids : gset nat.

(** [run x l r]: started at tensor [x], the loop moves on through the
    tensors [l], in that order, and is then left with [r]. *)
Inductive run : nat -> list nat -> walk_t -> Prop :=
| run_emplace x t :
    scan_step dg op_ids x = Emplace t -> run x [] (Found t)
| run_break x :
    scan_step dg op_ids x = Break -> run x [] Stop
| run_undefined x :
    scan_step dg op_ids x = Undefined -> run x [] Fault
| run_next x lt l r :
    scan_step dg op_ids x = Next lt -> run (LT.id_ lt) l r ->
    run x (LT.id_ lt :: l) r.

(** The first inputs of the ops of the graph. *)
Definition first_input_ids : list nat :=
  omap (fun op => LT.id_ <$> OP.in_lts_ op !! 0%nat) (ops_ dg).
End scan_runs.

(** ** Notions used to state the properties *)

(** [reaches dg op_ids x y]: the inner loop started at tensor [x] has [y] as
    its current tensor at the start of some iteration. *)
Inductive reaches (dg : deserialized_graph) (op_ids : gset nat)
  : nat -> nat -> Prop :=
| reaches_here x : reaches dg op_ids x x
| reaches_next x lt y :
    scan_step dg op_ids x = Next lt -> reaches dg op_ids (LT.id_ lt) y ->
    reaches dg op_ids x y.

(** The producer of the tensor is empty or is not an op of the partition. *)
Definition producer_outside (dg : deserialized_graph) (op_ids : gset nat)
    (lt_id : nat) : Prop :=
  get_op_by_out_lt dg lt_id = None
  \/ exists prev_parent_op,
       get_op_by_out_lt dg lt_id = Some prev_parent_op
       /\ OP.id_ prev_parent_op ∉ op_ids.

(** [displace_input_data] without its [while] loop: the quantize filling
    followed by the reorder into [mem]. *)
Definition fill_and_reorder `{backend : ref_backend} (main_op : deserialized_op)
    (main_op_offset : nat) (tensor : deserialized_lt) (mem : mem_t)
    (res : res_t) : exec (Z * mem_t * res_t) :=
  let main_op_arg :=
    get_prim_arg_name_from_graph_op_input_offset
      (opstr2kind (OP.kind_ main_op)) main_op_offset in
  '(status, mem_replace, res) ←
    gen_quantize_filling main_op main_op_arg empty_mem
      (LT.data_type_ tensor) res;
  if negb (bool_decide (status = OK)) then Value (status, mem, res)
  else if skipped_or_unimplemented res then Value (OK, mem, res)
  else
    let src := {| md_ := md_ mem; data_ := data_ mem_replace |} in
    let '(status, mem') := reorder mem src in
    if negb (bool_decide (status = OK)) then Value (status, mem', res)
    else Value (OK, mem', res).

(** The emplace calls of the scan, in the order in which they are made: the
    key and the triple of each. *)
Section discoveries.
Variable dg : deserialized_graph.
Variable op_ids : gset nat.

Definition discovery (aop : deserialized_op) (i : nat) (lt : deserialized_lt)
  : list (nat * displace_t) :=
  match walk dg op_ids (scan_fuel dg) (LT.id_ lt) with
  | Found t => [(LT.id_ t, (aop, i, t))]
  | _ => []
  end.

Fixpoint input_discoveries (aop : deserialized_op) (i : nat)
    (lts : list deserialized_lt) : list (nat * displace_t) :=
  match lts with
  | [] => []
  | lt :: rest => discovery aop i lt ++ input_discoveries aop (S i) rest
  end.

Fixpoint discoveries (ops : list deserialized_op) : list (nat * displace_t) :=
  match ops with
  | [] => []
  | aop :: rest =>
      if bool_decide (OP.id_ aop ∉ op_ids) then discoveries rest
      else if bool_decide (OP.kind_ aop ∉ main_op_kind) then discoveries rest
      else input_discoveries aop 0 (OP.in_lts_ aop) ++ discoveries rest
  end.
End discoveries.

Definition emplace_all (m : gmap nat displace_t) (l : list (nat * displace_t))
  : gmap nat displace_t :=
  foldl (fun m kv => emplace kv.1 kv.2 m) m l.

(** [fed_by dg x d]: op [d] produces tensor [x], or produces the first input
    of a go-through op that does, and so on. *)
Inductive fed_by (dg : deserialized_graph) : nat -> deserialized_op -> Prop :=
| fed_directly x p :
    get_op_by_out_lt dg x = Some p -> fed_by dg x p
| fed_through x p lt d :
    get_op_by_out_lt dg x = Some p ->
    OP.kind_ p ∈ go_through_op_kind ->
    OP.in_lts_ p !! 0%nat = Some lt ->
    fed_by dg (LT.id_ lt) d ->
    fed_by dg x d.

(** A dequantize feeds an input of a main op of the partition through
    go-through ops. *)
Definition dequantize_to_main_op_chain (dg : deserialized_graph)
    (op_ids : gset nat) : Prop :=
  exists aop lt d,
    aop ∈ ops_ dg /\ OP.id_ aop ∈ op_ids /\ OP.kind_ aop ∈ main_op_kind
    /\ lt ∈ OP.in_lts_ aop /\ fed_by dg (LT.id_ lt) d
    /\ OP.kind_ d = "Dequantize".

(** The assumption of the constructor: the graph is sorted in chronological
    order, the producer of an input of an op coming before the op. *)
Definition chronological (dg : deserialized_graph) : Prop :=
  forall (j : nat) op lt p,
    ops_ dg !! j = Some op -> lt ∈ OP.in_lts_ op ->
    get_op_by_out_lt dg (LT.id_ lt) = Some p ->
    exists j', (j' < j)%nat /\ ops_ dg !! j' = Some p.

(** Every op of a go-through kind has an input. *)
Definition go_through_ops_have_input (dg : deserialized_graph) : Prop :=
  forall op, op ∈ ops_ dg -> OP.kind_ op ∈ go_through_op_kind ->
    OP.in_lts_ op <> [].

(** An order that is a permutation of [0, ..., n-1], [n] being its length. *)
Definition valid_order (order : list Z) : Prop :=
  order ≡ₚ seqZ 0 (Z.of_nat (length order)).

(** Transposing by an order: position [k] of the result is taken from
    position [order[k]] of the sequence. *)
Definition transpose_by {A} `{Inhabited A} (order : list Z) (s : list A)
  : list A :=
  (fun o => s !!! Z.to_nat o) <$> order.

(** The reference primitive reports the op of the quantize filling as
    skipped or unimplemented: at [init_prim] or, failing that, at
    [init_ref_memory_args]; [res0] is the result after [init_prb], the last
    argument the result as reported. *)
Inductive filling_skipped `{backend : ref_backend} (op : deserialized_op)
    (res0 : res_t) : res_t -> Prop :=
| skipped_at_init_prim res1 :
    init_prim op res0 = (OK, res1) ->
    skipped_or_unimplemented res1 = true ->
    filling_skipped op res0 res1
| skipped_at_init_ref_memory_args res1 res2 :
    init_prim op res0 = (OK, res1) ->
    skipped_or_unimplemented res1 = false ->
    init_ref_memory_args op res1 = (OK, res2) ->
    skipped_or_unimplemented res2 = true ->
    filling_skipped op res0 res2.

(** ** Concrete graphs and a small backend to run the driver on *)

Module Examples.
Definition lt (id : nat) (dt : string) : deserialized_lt :=
  LT.mk id dt [2; 3; 4]%Z.

Definition op (id : nat) (kind : string) (ins outs : list deserialized_lt)
  : deserialized_op :=
  OP.mk id kind kind ∅ ins outs.

(** graph input 0 -> StaticTranspose(order = [1,0,2]) -> 1 -> Dequantize
    -> 2 -> MatMul (with weights 3) -> 4 *)
Definition transpose_op : deserialized_op :=
  OP.mk 10 "transpose" "StaticTranspose"
    {[ "order" := {| type_ := "s64[]"; s64_vector_ := [1; 0; 2]%Z |} ]}
    [lt 0 "u8"] [lt 1 "u8"].
Definition dequantize_op : deserialized_op :=
  op 11 "Dequantize" [lt 1 "u8"] [lt 2 "f32"].
Definition matmul_op : deserialized_op :=
  op 12 "MatMul" [lt 2 "f32"; lt 3 "f32"] [lt 4 "f32"].
Definition chain_graph : deserialized_graph :=
  {| ops_ := [transpose_op; dequantize_op; matmul_op] |}.
(** the displacer of the partition of all three ops, and of the partition
    without the transpose *)
Definition chain_displacer_all : partition_data_displacer_t :=
  {| dg_ := Some chain_graph;
     op_ids_set_ := list_to_set [10; 11; 12]%nat;
     quantize_displace_ := ∅ |}.
Definition chain_displacer_inner : partition_data_displacer_t :=
  {| dg_ := Some chain_graph;
     op_ids_set_ := list_to_set [11; 12]%nat;
     quantize_displace_ := {[ 1%nat := (matmul_op, 0%nat, lt 1 "u8") ]} |}.

(** graph input 0 -> Dequantize -> 1 -> TypeCast -> 2 -> Dequantize -> 3
    -> MatMul (with weights 4) -> 5 *)
Definition outer_dq : deserialized_op :=
  op 20 "Dequantize" [lt 0 "u8"] [lt 1 "f32"].
Definition typecast_op : deserialized_op :=
  op 21 "TypeCast" [lt 1 "f32"] [lt 2 "u8"].
Definition inner_dq : deserialized_op :=
  op 22 "Dequantize" [lt 2 "u8"] [lt 3 "f32"].
Definition inner_matmul : deserialized_op :=
  op 23 "MatMul" [lt 3 "f32"; lt 4 "f32"] [lt 5 "f32"].
Definition two_dq_graph : deserialized_graph :=
  {| ops_ := [outer_dq; typecast_op; inner_dq; inner_matmul] |}.
Definition two_dq_all : gset nat := list_to_set [20; 21; 22; 23]%nat.
Definition two_dq_inner : gset nat := list_to_set [21; 22; 23]%nat.
Definition two_dq_displacer : partition_data_displacer_t :=
  {| dg_ := Some two_dq_graph;
     op_ids_set_ := two_dq_all;
     quantize_displace_ := {[ 0%nat := (inner_matmul, 0%nat, lt 0 "u8") ]} |}.

(** graph input 0 -> Dequantize -> 1, consumed twice by an Add and once more
    by a Multiply *)
Definition shared_dq : deserialized_op :=
  op 30 "Dequantize" [lt 0 "u8"] [lt 1 "f32"].
Definition add_op : deserialized_op :=
  op 31 "Add" [lt 1 "f32"; lt 1 "f32"] [lt 2 "f32"].
Definition multiply_op : deserialized_op :=
  op 32 "Multiply" [lt 2 "f32"; lt 1 "f32"] [lt 3 "f32"].
Definition shared_graph : deserialized_graph :=
  {| ops_ := [shared_dq; add_op; multiply_op] |}.
Definition shared_displacer : partition_data_displacer_t :=
  {| dg_ := Some shared_graph;
     op_ids_set_ := list_to_set [30; 31; 32]%nat;
     quantize_displace_ := {[ 0%nat := (add_op, 0%nat, lt 0 "u8") ]} |}.

(** graph input 0 -> Dequantize -> 1 -> a binary op of the given kind
    (with second input 2) -> 3 *)
Definition binary_dq : deserialized_op :=
  op 40 "Dequantize" [lt 0 "u8"] [lt 1 "f32"].
Definition binary_op (kind : string) : deserialized_op :=
  op 41 kind [lt 1 "f32"; lt 2 "f32"] [lt 3 "f32"].
Definition binary_graph (kind : string) : deserialized_graph :=
  {| ops_ := [binary_dq; binary_op kind] |}.

(** graph input 0 -> TypeCast -> 1 -> MatMul (with weights 2) -> 3: no
    dequantize at all *)
Definition plain_cast : deserialized_op :=
  op 50 "TypeCast" [lt 0 "f32"] [lt 1 "bf16"].
Definition plain_matmul : deserialized_op :=
  op 51 "MatMul" [lt 1 "bf16"; lt 2 "bf16"] [lt 3 "bf16"].
Definition plain_graph : deserialized_graph :=
  {| ops_ := [plain_cast; plain_matmul] |}.

(** graph input 0 -> ReLU -> 1 -> MatMul (with weights 2) -> 3, and a
    displacer state, not one the constructor builds, with tensor 1 as the
    boundary of the MatMul *)
Definition relu_op : deserialized_op :=
  op 60 "ReLU" [lt 0 "f32"] [lt 1 "f32"].
Definition relu_matmul : deserialized_op :=
  op 61 "MatMul" [lt 1 "f32"; lt 2 "f32"] [lt 3 "f32"].
Definition relu_graph : deserialized_graph :=
  {| ops_ := [relu_op; relu_matmul] |}.
Definition relu_displacer : partition_data_displacer_t :=
  {| dg_ := Some relu_graph;
     op_ids_set_ := list_to_set [60; 61]%nat;
     quantize_displace_ := {[ 1%nat := (relu_matmul, 0%nat, lt 1 "f32") ]} |}.

(** A backend that logs what is done to a memory.  [init_prim] reports the
    state [prim_state]; [reorder] returns [reorder_status] and, when that
    is [OK], fills the destination. *)
Definition logging_backend (prim_state : res_state_t) (reorder_status : Z)
  : ref_backend := {|
  md_t := string;
  data_t := list string;
  empty_mem := {| md_ := ""; data_ := [] |};
  opkind2driver k :=
    match k with
    | kind.Other "MatMul" => matmul
    | kind.Other "AvgPool" | kind.Other "MaxPool" => pool
    | kind.Other "Add" | kind.Other "Multiply" => binary
    | _ => others
    end;
  get_prim_arg_name_from_graph_op_input_offset k i := Z.of_nat i;
  init_prb op r := r;
  init_prim op r := (OK, {| state := prim_state |});
  init_ref_memory_args op r := (OK, r);
  get_arg op a :=
    {| md_ := "md of " ++ OP.kind_ op; data_ := ["fill " ++ OP.kind_ op] |};
  execute_prim op src r :=
    (OK, {| state := EXECUTED |},
     {| md_ := "dst of " ++ OP.kind_ op;
        data_ := ("run " ++ OP.kind_ op) :: data_ src |});
  reorder m src :=
    (reorder_status,
     if bool_decide (reorder_status = OK)
     then {| md_ := md_ m; data_ := "reorder" :: data_ src |} else m)
|}.

(** the buffer of the caller, with its prior contents *)
Definition target : dnn_mem_t string (list string) :=
  {| md_ := "target"; data_ := ["prior contents"] |}.
End Examples.

(** The op that [gen_quantize_filling] makes of [Examples.inner_matmul] for a
    boundary tensor of data type u8. *)
Definition filling_of_inner_matmul : deserialized_op :=
  Examples.op 23 "MatMul" [Examples.lt 3 "u8"; Examples.lt 4 "s8"]
    [Examples.lt 5 "f32"].

(** The axis an entry of an order stands for: entries may be negative and
    then count from the last axis; [(o + n) % n] over the integers. *)
Definition axis (ndims : nat) (o : Z) : Z :=
  ((o + Z.of_nat ndims) mod Z.of_nat ndims)%Z.

(** A permutation of the [n] axes, written with entries from [-n] to
    [n - 1]. *)
Definition valid_permutation (order : list Z) : Prop :=
  Forall (fun o => (- Z.of_nat (length order) <= o < Z.of_nat (length order))%Z)
    order
  /\ axis (length order) <$> order ≡ₚ seqZ 0 (Z.of_nat (length order)).

(** Transposing by an order: position [k] of the result is taken from the
    axis that [order[k]] stands for. *)
Definition transpose_axes {A} `{Inhabited A} (order : list Z) (s : list A)
  : list A :=
  (fun o => s !!! Z.to_nat (axis (length order) o)) <$> order.

(** The displacer of the partition that holds the Add of
    [Examples.binary_graph "Add"] alone, the Dequantize in front of it being
    outside. *)
Definition add_only_displacer : partition_data_displacer_t :=
  {| dg_ := Some (Examples.binary_graph "Add");
     op_ids_set_ := list_to_set [41%nat];
     quantize_displace_ :=
       {[ 0%nat := (Examples.binary_op "Add", 0%nat, Examples.lt 0 "u8") ]} |}.

(** * Properties *)

(** ** The inner loop of the scan ends within [scan_fuel] iterations *)

Section walk_facts.
Variable dg : deserialized_graph.
Variable op_ids : gset nat.

Lemma walk_run fuel x r :
  walk dg op_ids fuel x = r -> r <> Diverge ->
  exists l, run dg op_ids x l r /\ (length l < fuel)%nat.
Proof.
  revert x. induction fuel as [|fuel IH]; intros x Hw Hr; simpl in Hw.
  - congruence.
  - destruct (scan_step dg op_ids x) as [t| |lt|] eqn:Hs; subst r.
    + exists []. split; [by constructor | simpl; lia].
    + exists []. split; [by constructor | simpl; lia].
    + destruct (IH (LT.id_ lt) eq_refl Hr) as (l & Hl & Hlen).
      exists (LT.id_ lt :: l). split; [by econstructor | simpl; lia].
    + exists []. split; [by constructor | simpl; lia].
Qed.

Lemma run_walk x l r fuel :
  run dg op_ids x l r -> (length l < fuel)%nat -> walk dg op_ids fuel x = r.
Proof.
  intros Hrun. revert fuel.
  induction Hrun as [x t Hs|x Hs|x Hs|x lt l r Hs Hrun IH]; intros fuel Hlen;
    (destruct fuel as [|fuel]; [simpl in Hlen; lia|]); simpl; rewrite Hs;
    try reflexivity.
  apply IH. simpl in Hlen. lia.
Qed.

Lemma run_not_diverge x l r : run dg op_ids x l r -> r <> Diverge.
Proof. induction 1; congruence. Qed.

Lemma run_deterministic x l r l' r' :
  run dg op_ids x l r -> run dg op_ids x l' r' -> l = l' /\ r = r'.
Proof.
  intros H. revert l' r'.
  induction H as [x t Hs|x Hs|x Hs|x lt l r Hs Hrun IH]; intros l' r' H';
    inversion H' as [? ? Hs'|? Hs'|? Hs'|? lt' l'' ? Hs' Hrun']; subst;
    try congruence; try (split; congruence).
  assert (lt' = lt) as -> by congruence.
  destruct (IH _ _ Hrun') as [-> ->]. done.
Qed.

(** The rest of a run, from any tensor passed on the way. *)
Lemma run_suffix x l1 y l2 r :
  run dg op_ids x (l1 ++ y :: l2) r -> run dg op_ids y l2 r.
Proof.
  revert x. induction l1 as [|z l1 IH]; intros x H; simpl in H.
  - inversion H as [| | |? lt ? ? Hs Hrun]; subst. done.
  - inversion H as [| | |? lt ? ? Hs Hrun]; subst. eauto.
Qed.

Lemma run_NoDup x l r : run dg op_ids x l r -> NoDup l.
Proof.
  induction 1 as [x t Hs|x Hs|x Hs|x lt l r Hs Hrun IH];
    try apply NoDup_nil_2.
  apply NoDup_cons. split; [|done].
  intros Hin. apply list_elem_of_split in Hin as (l1 & l2 & ->).
  pose proof (run_suffix _ _ _ _ _ Hrun) as Hsuf.
  destruct (run_deterministic _ _ _ _ _ Hrun Hsuf) as [Hl _].
  apply (f_equal length) in Hl. rewrite length_app in Hl. simpl in Hl. lia.
Qed.

Lemma first_input_ids_length :
  (length (first_input_ids dg) <= length (ops_ dg))%nat.
Proof.
  unfold first_input_ids. induction (ops_ dg) as [|op ops IH]; [done|].
  cbn [omap list_omap length].
  destruct (LT.id_ <$> OP.in_lts_ op !! 0%nat); cbn [length]; lia.
Qed.

Lemma get_op_by_out_lt_elem x op :
  get_op_by_out_lt dg x = Some op -> op ∈ ops_ dg.
Proof.
  unfold get_op_by_out_lt. intros H. apply find_some in H as [H _].
  by apply list_elem_of_In.
Qed.

Lemma scan_step_Next x lt :
  scan_step dg op_ids x = Next lt ->
  exists parent_op, get_op_by_out_lt dg x = Some parent_op
    /\ OP.kind_ parent_op ∈ go_through_op_kind
    /\ OP.in_lts_ parent_op !! 0%nat = Some lt.
Proof.
  unfold scan_step, continue_on_allowed. intros H.
  destruct (get_op_by_out_lt dg x) as [p|]; [|done].
  exists p. split; [done|].
  destruct (String.eqb (OP.kind_ p) "Dequantize");
    destruct (OP.in_lts_ p !! 0%nat) as [t|] eqn:Hin; try done;
    repeat case_match; try done; simplify_eq;
    (split; [by eapply bool_decide_eq_true_1 | done]).
Qed.

Lemma run_first_inputs x l r : run dg op_ids x l r -> l ⊆ first_input_ids dg.
Proof.
  induction 1 as [x t Hs|x Hs|x Hs|x lt l r Hs Hrun IH];
    try (intros y Hy; by apply elem_of_nil in Hy).
  intros y Hy. apply elem_of_cons in Hy as [->|Hy]; [|by apply IH].
  apply scan_step_Next in Hs as (p & Hp & _ & Hin).
  unfold first_input_ids. apply list_elem_of_omap. exists p.
  split; [by eapply get_op_by_out_lt_elem|]. by rewrite Hin.
Qed.

Lemma run_length x l r :
  run dg op_ids x l r -> (length l <= length (ops_ dg))%nat.
Proof.
  intros H. etrans; [|apply first_input_ids_length].
  apply NoDup_incl_length.
  - apply NoDup_ListNoDup. by eapply run_NoDup.
  - intros y Hy. apply list_elem_of_In. eapply run_first_inputs; [done|].
    by apply list_elem_of_In.
Qed.

(** A walk that ends with some fuel ends the same way with [scan_fuel]:
    when the fuel of the scan runs out, the loop of the source does not
    end. *)
Lemma walk_fuel_enough fuel x r :
  walk dg op_ids fuel x = r -> r <> Diverge ->
  walk dg op_ids (scan_fuel dg) x = r.
Proof.
  intros Hw Hr. destruct (walk_run _ _ _ Hw Hr) as (l & Hl & _).
  eapply run_walk; [done|]. unfold scan_fuel.
  pose proof (run_length _ _ _ Hl). lia.
Qed.
End walk_facts.

(** ** The scan *)

Section scan_facts.
Variable dg : deserialized_graph.
Variable op_ids : gset nat.

Lemma no_predecessor_in_partition_spec lt_id :
  no_predecessor_in_partition dg op_ids lt_id = true
  <-> producer_outside dg op_ids lt_id.
Proof.
  unfold no_predecessor_in_partition, producer_outside.
  destruct (get_op_by_out_lt dg lt_id) as [p|].
  - rewrite bool_decide_eq_true. split.
    + intros Hp. right. by exists p.
    + intros [Hn|(q & Hq & Hout)]; [done|]. by injection Hq as ->.
  - split; [by left | done].
Qed.

Lemma dequantize_in_go_through : "Dequantize" ∈ go_through_op_kind.
Proof.
  apply (bool_decide_eq_true_1 ("Dequantize" ∈ go_through_op_kind)).
  by vm_compute.
Qed.

(** The step taken at a tensor produced by a dequantize. *)
Lemma scan_step_dequantize x parent_op t :
  get_op_by_out_lt dg x = Some parent_op ->
  OP.kind_ parent_op = "Dequantize" ->
  OP.in_lts_ parent_op !! 0%nat = Some t ->
  scan_step dg op_ids x
  = if no_predecessor_in_partition dg op_ids (LT.id_ t)
    then Emplace t else Next t.
Proof.
  intros Hp Hk Hin. unfold scan_step, continue_on_allowed.
  rewrite Hp, Hk, Hin. simpl.
  destruct (no_predecessor_in_partition dg op_ids (LT.id_ t)); [done|].
  by rewrite (bool_decide_eq_true_2 _ dequantize_in_go_through).
Qed.

Lemma walk_scan_fuel_run x r :
  (walk dg op_ids (scan_fuel dg) x = r /\ r <> Diverge)
  <-> exists l, run dg op_ids x l r.
Proof.
  split.
  - intros [Hw Hr]. destruct (walk_run _ _ _ _ _ Hw Hr) as (l & Hl & _).
    eauto.
  - intros [l Hl]. split; [|by eapply run_not_diverge].
    eapply run_walk; [done|]. unfold scan_fuel.
    pose proof (run_length _ _ _ _ _ Hl). lia.
Qed.

Lemma reaches_run_down a y l r :
  reaches dg op_ids a y -> run dg op_ids a l r ->
  exists l2, run dg op_ids y l2 r.
Proof.
  intros Hreach. revert l.
  induction Hreach as [x|x lt y Hs Hreach IH]; intros l Hrun; [eauto|].
  inversion Hrun as [? ? Hs'|? Hs'|? Hs'|? lt' l' ? Hs' Hrun']; subst;
    try congruence.
  assert (lt' = lt) as -> by congruence. eauto.
Qed.

Lemma reaches_run_up a y l r :
  reaches dg op_ids a y -> run dg op_ids y l r ->
  exists l1, run dg op_ids a l1 r.
Proof.
  intros Hreach Hrun.
  induction Hreach as [x|x lt y Hs Hreach IH]; [eauto|].
  destruct (IH Hrun) as [l1 Hl1]. eexists. by eapply run_next.
Qed.

(** The loop ends the same way from every tensor it passes. *)
Lemma walk_reaches a y :
  reaches dg op_ids a y ->
  walk dg op_ids (scan_fuel dg) a = walk dg op_ids (scan_fuel dg) y.
Proof.
  intros Hreach.
  destruct (walk dg op_ids (scan_fuel dg) y) as [t| | |] eqn:Hy.
  4: {
    destruct (walk dg op_ids (scan_fuel dg) a) as [t| | |] eqn:Ha; [| | |done].
    all: assert (exists l, run dg op_ids a l (walk dg op_ids (scan_fuel dg) a))
      as [l Hl] by (apply walk_scan_fuel_run; rewrite Ha; done).
    all: destruct (reaches_run_down _ _ _ _ Hreach Hl) as [l2 Hl2].
    all: assert (walk dg op_ids (scan_fuel dg) y
                 = walk dg op_ids (scan_fuel dg) a) as Heq
      by (eapply walk_scan_fuel_run; eauto).
    all: rewrite Hy, Ha in Heq; done.
  }
  all: assert (exists l, run dg op_ids y l (walk dg op_ids (scan_fuel dg) y))
    as [l Hl] by (apply walk_scan_fuel_run; rewrite Hy; done).
  all: destruct (reaches_run_up _ _ _ _ Hreach Hl) as [l1 Hl1].
  all: rewrite Hy in Hl1.
  all: eapply walk_scan_fuel_run; eauto.
Qed.

Lemma walk_scan_fuel_unfold x :
  walk dg op_ids (scan_fuel dg) x
  = match scan_step dg op_ids x with
    | Emplace t => Found t
    | Break => Stop
    | Next lt => walk dg op_ids (scan_fuel dg) (LT.id_ lt)
    | Undefined => Fault
    end.
Proof.
  destruct (scan_step dg op_ids x) as [t| |lt|] eqn:Hs;
    try (unfold scan_fuel; simpl; by rewrite Hs).
  apply walk_reaches. eapply reaches_next; [done|]. constructor.
Qed.
End scan_facts.

(** ** The constructor returns on well-formed graphs *)

Section scan_returns.
Variable dg : deserialized_graph.
Variable op_ids : gset nat.
Hypothesis Hchrono : chronological dg.
Hypothesis Hinput : go_through_ops_have_input dg.

Lemma scan_step_Undefined x :
  scan_step dg op_ids x = Undefined ->
  exists p, get_op_by_out_lt dg x = Some p
    /\ OP.kind_ p ∈ go_through_op_kind /\ OP.in_lts_ p = [].
Proof.
  unfold scan_step, continue_on_allowed. intros H.
  destruct (get_op_by_out_lt dg x) as [p|]; [|done]. exists p.
  split; [done|].
  destruct (String.eqb (OP.kind_ p) "Dequantize") eqn:Hk.
  - apply String.eqb_eq in Hk. rewrite Hk.
    split; [apply dequantize_in_go_through|].
    destruct (OP.in_lts_ p) as [|t ts]; [done|]. simpl in H.
    rewrite Hk in H. repeat case_match; done.
  - destruct (bool_decide (OP.kind_ p ∈ go_through_op_kind)) eqn:Hgo;
      [|done].
    apply bool_decide_eq_true_1 in Hgo. split; [done|].
    by destruct (OP.in_lts_ p).
Qed.

Lemma walk_ends_at j x p :
  ops_ dg !! j = Some p -> get_op_by_out_lt dg x = Some p ->
  exists l r, run dg op_ids x l r /\ r <> Fault.
Proof.
  revert x p. induction (lt_wf j) as [j _ IH]. intros x p Hj Hp.
  destruct (scan_step dg op_ids x) as [t| |lt|] eqn:Hs.
  - exists [], (Found t). split; [by constructor | done].
  - exists [], Stop. split; [by constructor | done].
  - pose proof Hs as Hs'.
    apply scan_step_Next in Hs' as (p' & Hp' & _ & Hin).
    assert (p' = p) as -> by congruence.
    destruct (get_op_by_out_lt dg (LT.id_ lt)) as [q|] eqn:Hq.
    + destruct (Hchrono j p lt q Hj) as (j' & Hlt & Hj'); [|done|].
      { by eapply list_elem_of_lookup_2. }
      destruct (IH j' Hlt _ _ Hj' Hq) as (l & r & Hrun & Hr).
      exists (LT.id_ lt :: l), r. split; [by eapply run_next | done].
    + exists [LT.id_ lt], Stop. split; [|done].
      eapply run_next; [done|]. apply run_break.
      unfold scan_step. by rewrite Hq.
  - apply scan_step_Undefined in Hs as (p' & Hp' & Hgo & Hnil).
    assert (p' = p) as -> by congruence.
    exfalso. apply (Hinput p); [|done|done].
    by eapply list_elem_of_lookup_2.
Qed.

Lemma walk_ends x :
  exists r, walk dg op_ids (scan_fuel dg) x = r /\ r <> Fault /\ r <> Diverge.
Proof.
  destruct (get_op_by_out_lt dg x) as [p|] eqn:Hp.
  - pose proof (get_op_by_out_lt_elem _ _ _ Hp) as Hin.
    apply list_elem_of_lookup_1 in Hin as [j Hj].
    destruct (walk_ends_at j x p Hj Hp) as (l & r & Hrun & Hr).
    exists r. assert (exists l, run dg op_ids x l r) as Hex by eauto.
    apply walk_scan_fuel_run in Hex as [Hw Hd]. done.
  - exists Stop. split; [|done]. unfold scan_fuel. simpl.
    unfold scan_step. by rewrite Hp.
Qed.

Lemma scan_inputs_returns aop i lts m :
  exists m', scan_inputs dg op_ids aop i lts m = Value m'.
Proof.
  revert i m. induction lts as [|lt rest IH]; intros i m; simpl; [eauto|].
  unfold scan_input.
  destruct (walk_ends (LT.id_ lt)) as (r & -> & Hf & Hd).
  destruct r; try done; simpl; apply IH.
Qed.

Lemma scan_ops_returns ops m :
  exists m', scan_ops dg op_ids ops m = Value m'.
Proof.
  revert m. induction ops as [|aop rest IH]; intros m; simpl; [eauto|].
  repeat case_match; try apply IH.
  destruct (scan_inputs_returns aop 0 (OP.in_lts_ aop) m) as [m1 ->].
  simpl. apply IH.
Qed.
End scan_returns.

(** On a graph in chronological order whose go-through ops have an input,
    the constructor returns a displacer. *)
Lemma ctor_returns dg par_ops :
  chronological dg -> go_through_ops_have_input dg ->
  exists d, partition_data_displacer_t_ctor dg par_ops = Value d.
Proof.
  intros Hc Hi. unfold partition_data_displacer_t_ctor.
  destruct (scan_ops_returns dg (list_to_set par_ops) Hc Hi (ops_ dg) ∅)
    as [m ->].
  simpl. eauto.
Qed.

(** ** Acceptance of a dequantize as the boundary *)

(** C1. When the walk from the input [lt] of a main op [aop] (slot [i]) has
    reached a tensor [x] produced by a dequantize with input [t], the step of
    the scan at [x] is the emplace of [t] exactly when the producer of [t] is
    empty or outside the partition; and in that case the scan of the slot
    consists of emplacing [(aop, i, t)] under the id of [t], the loop being
    left there: afterwards the map holds that triple under the id of [t]
    when the id had no entry, is the same map when it had one, and has every
    other key as before. *)
Theorem dequantize_boundary_acceptance
    (dg : deserialized_graph) (op_ids : gset nat) (aop : deserialized_op)
    (i : nat) (lt : deserialized_lt) (m : gmap nat displace_t) (x : nat)
    (parent_op : deserialized_op) (t : deserialized_lt) :
  reaches dg op_ids (LT.id_ lt) x ->
  get_op_by_out_lt dg x = Some parent_op ->
  OP.kind_ parent_op = "Dequantize" ->
  OP.in_lts_ parent_op !! 0%nat = Some t ->
  (scan_step dg op_ids x = Emplace t
   <-> producer_outside dg op_ids (LT.id_ t))
  /\ (producer_outside dg op_ids (LT.id_ t) ->
      walk dg op_ids (scan_fuel dg) (LT.id_ lt) = Found t
      /\ exists m',
           scan_input dg op_ids aop i lt m = Value m'
           /\ m' = emplace (LT.id_ t) (aop, i, t) m
           /\ (m !! LT.id_ t = None -> m' !! LT.id_ t = Some (aop, i, t))
           /\ (forall v, m !! LT.id_ t = Some v -> m' = m)
           /\ (forall k, k <> LT.id_ t -> m' !! k = m !! k)).
Proof.
  intros Hreach Hp Hk Hin.
  pose proof (scan_step_dequantize dg op_ids x parent_op t Hp Hk Hin) as Hstep.
  pose proof (no_predecessor_in_partition_spec dg op_ids (LT.id_ t)) as Hspec.
  assert (producer_outside dg op_ids (LT.id_ t) ->
          walk dg op_ids (scan_fuel dg) (LT.id_ lt) = Found t) as Hwalk.
  { intros Hout. apply Hspec in Hout.
    rewrite (walk_reaches dg op_ids _ _ Hreach), walk_scan_fuel_unfold.
    by rewrite Hstep, Hout. }
  split; [|intros Hout; split; [by apply Hwalk|]].
  - rewrite Hstep, <- Hspec.
    destruct (no_predecessor_in_partition dg op_ids (LT.id_ t)); split;
      congruence.
  - exists (emplace (LT.id_ t) (aop, i, t) m).
    split; [unfold scan_input; by rewrite (Hwalk Hout)|].
    split; [done|]. unfold emplace. split; [|split].
    + intros Hnone. rewrite Hnone. apply lookup_insert_eq.
    + intros v Hv. by rewrite Hv.
    + intros k Hne. destruct (m !! LT.id_ t); [done|].
      by apply lookup_insert_ne.
Qed.

Lemma dequantize_boundary_acceptance_witness :
  (scan_step Examples.two_dq_graph Examples.two_dq_inner 1
   = Emplace (Examples.lt 0 "u8")
   <-> producer_outside Examples.two_dq_graph Examples.two_dq_inner 0)
  /\ (producer_outside Examples.two_dq_graph Examples.two_dq_inner 0 ->
      walk Examples.two_dq_graph Examples.two_dq_inner
        (scan_fuel Examples.two_dq_graph) 3
      = Found (Examples.lt 0 "u8")
      /\ exists m',
           scan_input Examples.two_dq_graph Examples.two_dq_inner
             Examples.inner_matmul 0 (Examples.lt 3 "f32") ∅
           = Value m'
           /\ m' = emplace 0
                     (Examples.inner_matmul, 0%nat, Examples.lt 0 "u8") ∅
           /\ ((∅ : gmap nat displace_t) !! 0%nat = None ->
               m' !! 0%nat
               = Some (Examples.inner_matmul, 0%nat, Examples.lt 0 "u8"))
           /\ (forall v, (∅ : gmap nat displace_t) !! 0%nat = Some v ->
                 m' = ∅)
           /\ (forall k, k <> 0%nat ->
                 m' !! k = (∅ : gmap nat displace_t) !! k)).
Proof.
  apply (dequantize_boundary_acceptance Examples.two_dq_graph
           Examples.two_dq_inner Examples.inner_matmul 0 (Examples.lt 3 "f32")
           ∅ 1 Examples.outer_dq (Examples.lt 0 "u8")).
  - eapply reaches_next; [by vm_compute|].
    eapply reaches_next; [by vm_compute|]. apply reaches_here.
  - reflexivity.
  - reflexivity.
  - reflexivity.
Defined.

(** ** A rejected dequantize *)

(** The scan of the first input of the MatMul of [two_dq_graph], all four ops
    being in the partition: at the inner dequantize (producer of tensor 3,
    whose own input 2 is produced by the TypeCast of the partition) the loop
    is not left; it goes on to tensor 2 and further up, and the slot ends up
    with the boundary at tensor 0 recorded. *)
Lemma rejected_dequantize_scan_goes_on :
  scan_step Examples.two_dq_graph Examples.two_dq_all 3
  = Next (Examples.lt 2 "u8")
  /\ scan_step Examples.two_dq_graph Examples.two_dq_all 3 <> Break
  /\ scan_input Examples.two_dq_graph Examples.two_dq_all
       Examples.inner_matmul 0 (Examples.lt 3 "f32") ∅
     = Value {[ 0%nat := (Examples.inner_matmul, 0%nat, Examples.lt 0 "u8") ]}
  /\ scan_input Examples.two_dq_graph Examples.two_dq_all
       Examples.inner_matmul 0 (Examples.lt 3 "f32") ∅
     <> Value ∅.
Proof. by vm_compute. Qed.

(** C2, amended.  At a tensor [x] produced by a dequantize whose input [t] is
    produced by an op of the partition, nothing is emplaced and the loop goes
    on with [t] as the current tensor; the scan of a slot whose walk reaches
    [x] has the result of the scan started at [t]. *)
Theorem rejected_dequantize_is_passed_through
    (dg : deserialized_graph) (op_ids : gset nat) (aop : deserialized_op)
    (i : nat) (lt : deserialized_lt) (m : gmap nat displace_t) (x : nat)
    (parent_op : deserialized_op) (t : deserialized_lt)
    (prev_parent_op : deserialized_op) :
  reaches dg op_ids (LT.id_ lt) x ->
  get_op_by_out_lt dg x = Some parent_op ->
  OP.kind_ parent_op = "Dequantize" ->
  OP.in_lts_ parent_op !! 0%nat = Some t ->
  get_op_by_out_lt dg (LT.id_ t) = Some prev_parent_op ->
  OP.id_ prev_parent_op ∈ op_ids ->
  scan_step dg op_ids x = Next t
  /\ (forall fuel, walk dg op_ids (S fuel) x = walk dg op_ids fuel (LT.id_ t))
  /\ scan_input dg op_ids aop i lt m = scan_input dg op_ids aop i t m.
Proof.
  intros Hreach Hp Hk Hin Hprev Hmem.
  assert (scan_step dg op_ids x = Next t) as Hstep.
  { rewrite (scan_step_dequantize dg op_ids x parent_op t Hp Hk Hin).
    unfold no_predecessor_in_partition. rewrite Hprev.
    by rewrite bool_decide_eq_false_2 by (intros Hn; by apply Hn). }
  split; [done|]. split.
  - intros fuel. simpl. by rewrite Hstep.
  - unfold scan_input.
    rewrite (walk_reaches dg op_ids _ _ Hreach), walk_scan_fuel_unfold.
    by rewrite Hstep.
Qed.

Lemma rejected_dequantize_is_passed_through_witness :
  scan_step Examples.two_dq_graph Examples.two_dq_all 3
  = Next (Examples.lt 2 "u8")
  /\ (forall fuel,
        walk Examples.two_dq_graph Examples.two_dq_all (S fuel) 3
        = walk Examples.two_dq_graph Examples.two_dq_all fuel 2)
  /\ scan_input Examples.two_dq_graph Examples.two_dq_all
       Examples.inner_matmul 0 (Examples.lt 3 "f32") ∅
     = scan_input Examples.two_dq_graph Examples.two_dq_all
         Examples.inner_matmul 0 (Examples.lt 2 "u8") ∅.
Proof.
  apply (rejected_dequantize_is_passed_through Examples.two_dq_graph
           Examples.two_dq_all Examples.inner_matmul 0 (Examples.lt 3 "f32")
           ∅ 3 Examples.inner_dq (Examples.lt 2 "u8") Examples.typecast_op).
  - apply reaches_here.
  - reflexivity.
  - reflexivity.
  - reflexivity.
  - reflexivity.
  - by vm_compute.
Defined.

(** ** The scan as a sequence of emplace calls *)

Section discovery_facts.
Variable dg : deserialized_graph.
Variable op_ids : gset nat.

Lemma scan_input_discovery aop i lt m m' :
  scan_input dg op_ids aop i lt m = Value m' ->
  m' = emplace_all m (discovery dg op_ids aop i lt).
Proof.
  unfold scan_input, discovery.
  destruct (walk dg op_ids (scan_fuel dg) (LT.id_ lt)); simpl; congruence.
Qed.

Lemma emplace_all_app m l1 l2 :
  emplace_all m (l1 ++ l2) = emplace_all (emplace_all m l1) l2.
Proof. apply foldl_app. Qed.

Lemma scan_inputs_discoveries aop i lts m m' :
  scan_inputs dg op_ids aop i lts m = Value m' ->
  m' = emplace_all m (input_discoveries dg op_ids aop i lts).
Proof.
  revert i m. induction lts as [|lt rest IH]; intros i m H; simpl in H.
  - by injection H as <-.
  - destruct (scan_input dg op_ids aop i lt m) as [m1| | | |] eqn:H1;
      try done.
    simpl in H. apply IH in H. apply scan_input_discovery in H1.
    simpl. rewrite emplace_all_app. by subst.
Qed.

Lemma scan_ops_discoveries ops m m' :
  scan_ops dg op_ids ops m = Value m' ->
  m' = emplace_all m (discoveries dg op_ids ops).
Proof.
  revert m. induction ops as [|aop rest IH]; intros m H; simpl in H |- *.
  - by injection H as <-.
  - destruct (bool_decide (OP.id_ aop ∉ op_ids)); [by apply IH|].
    destruct (bool_decide (OP.kind_ aop ∉ main_op_kind)); [by apply IH|].
    destruct (scan_inputs dg op_ids aop 0 (OP.in_lts_ aop) m)
      as [m1| | | |] eqn:H1; try done.
    simpl in H. apply IH in H. apply scan_inputs_discoveries in H1.
    rewrite emplace_all_app. by subst.
Qed.

(** What is known of an emplace call of the scan. *)
Lemma input_discoveries_elem aop i lts k main_op off t :
  (k, (main_op, off, t)) ∈ input_discoveries dg op_ids aop i lts ->
  k = LT.id_ t /\ main_op = aop
  /\ exists lt, lts !! (off - i)%nat = Some lt /\ (i <= off)%nat
       /\ walk dg op_ids (scan_fuel dg) (LT.id_ lt) = Found t.
Proof.
  revert i. induction lts as [|lt rest IH]; intros i H; simpl in H.
  - by apply elem_of_nil in H.
  - apply elem_of_app in H as [H|H].
    + unfold discovery in H.
      destruct (walk dg op_ids (scan_fuel dg) (LT.id_ lt)) as [t'| | |]
        eqn:Hw; try by apply elem_of_nil in H.
      apply list_elem_of_singleton in H. simplify_eq.
      split; [done|]. split; [done|]. exists lt.
      by rewrite Nat.sub_diag.
    + destruct (IH _ H) as (-> & -> & lt' & Hl & Hle & Hw).
      split; [done|]. split; [done|]. exists lt'.
      split; [|split; [lia|done]].
      replace (off - i)%nat with (S (off - S i)) by lia. done.
Qed.

Lemma discoveries_elem ops k main_op off t :
  (k, (main_op, off, t)) ∈ discoveries dg op_ids ops ->
  k = LT.id_ t /\ main_op ∈ ops /\ OP.id_ main_op ∈ op_ids
  /\ OP.kind_ main_op ∈ main_op_kind
  /\ exists lt, OP.in_lts_ main_op !! off = Some lt
       /\ walk dg op_ids (scan_fuel dg) (LT.id_ lt) = Found t.
Proof.
  induction ops as [|aop rest IH]; intros H; simpl in H.
  - by apply elem_of_nil in H.
  - assert ((k, (main_op, off, t)) ∈ discoveries dg op_ids rest ->
            k = LT.id_ t /\ main_op ∈ aop :: rest /\ OP.id_ main_op ∈ op_ids
            /\ OP.kind_ main_op ∈ main_op_kind
            /\ exists lt, OP.in_lts_ main_op !! off = Some lt
                 /\ walk dg op_ids (scan_fuel dg) (LT.id_ lt) = Found t)
      as Hrest.
    { intros H'. destruct (IH H') as (? & ? & ? & ? & ?).
      repeat split; try done. by apply list_elem_of_further. }
    destruct (bool_decide (OP.id_ aop ∉ op_ids)) eqn:Hid; [by apply Hrest|].
    destruct (bool_decide (OP.kind_ aop ∉ main_op_kind)) eqn:Hkind;
      [by apply Hrest|].
    apply elem_of_app in H as [H|H]; [|by apply Hrest].
    apply input_discoveries_elem in H as (-> & -> & lt & Hl & _ & Hw).
    rewrite Nat.sub_0_r in Hl.
    apply bool_decide_eq_false_1 in Hid, Hkind.
    split; [done|]. split; [apply list_elem_of_here|].
    split; [by destruct (decide (OP.id_ aop ∈ op_ids))|].
    split; [by destruct (decide (OP.kind_ aop ∈ main_op_kind))|].
    by exists lt.
Qed.

Lemma emplace_lookup_Some k v m k' v' :
  m !! k' = Some v' -> emplace k v m !! k' = Some v'.
Proof.
  intros H. unfold emplace. destruct (m !! k) eqn:Hk; [done|].
  rewrite lookup_insert_ne; [done|]. congruence.
Qed.

Lemma emplace_all_lookup_Some m l k v :
  m !! k = Some v -> emplace_all m l !! k = Some v.
Proof.
  revert m. induction l as [|[k' v'] l IH]; intros m H; [done|].
  simpl. apply IH. by apply emplace_lookup_Some.
Qed.

Lemma emplace_all_lookup_first m l1 k v l2 :
  m !! k = None -> k ∉ l1.*1 ->
  emplace_all m (l1 ++ (k, v) :: l2) !! k = Some v.
Proof.
  revert m. induction l1 as [|[k' v'] l1 IH]; intros m Hm Hk; simpl.
  - apply emplace_all_lookup_Some. unfold emplace. rewrite Hm.
    apply lookup_insert_eq.
  - simpl in Hk. apply not_elem_of_cons in Hk as [Hne Hk].
    apply IH; [|done]. unfold emplace.
    destruct (m !! k'); [done|]. by rewrite lookup_insert_ne.
Qed.

Lemma emplace_all_lookup_elem m l k v :
  emplace_all m l !! k = Some v -> m !! k = Some v \/ (k, v) ∈ l.
Proof.
  revert m. induction l as [|[k' v'] l IH]; intros m H; simpl in H.
  - by left.
  - apply IH in H as [H|H]; [|right; by apply list_elem_of_further].
    unfold emplace in H. destruct (m !! k') eqn:Hk'; [by left|].
    destruct (decide (k' = k)) as [->|Hne].
    + rewrite lookup_insert_eq in H. injection H as ->.
      right. apply list_elem_of_here.
    + rewrite lookup_insert_ne in H by done. by left.
Qed.

Lemma walk_Found fuel x t :
  walk dg op_ids fuel x = Found t ->
  no_predecessor_in_partition dg op_ids (LT.id_ t) = true
  /\ exists d, fed_by dg x d /\ OP.kind_ d = "Dequantize".
Proof.
  revert x. induction fuel as [|fuel IH]; intros x H; simpl in H; [done|].
  destruct (scan_step dg op_ids x) as [t'| |lt|] eqn:Hs; try done.
  - injection H as ->. unfold scan_step in Hs.
    destruct (get_op_by_out_lt dg x) as [p|] eqn:Hp; [|done].
    destruct (String.eqb (OP.kind_ p) "Dequantize") eqn:Hk.
    + apply String.eqb_eq in Hk.
      destruct (OP.in_lts_ p !! 0%nat) as [t'|]; [|done].
      destruct (no_predecessor_in_partition dg op_ids (LT.id_ t')) eqn:Hno.
      * injection Hs as ->. split; [done|]. exists p.
        split; [by constructor | done].
      * unfold continue_on_allowed in Hs. repeat case_match; done.
    + unfold continue_on_allowed in Hs. repeat case_match; done.
  - destruct (IH _ H) as (Hno & d & Hfed & Hd). split; [done|].
    exists d. split; [|done].
    apply scan_step_Next in Hs as (p & Hp & Hgo & Hin).
    by eapply fed_through.
Qed.
End discovery_facts.

(** ** What the constructor leaves in [quantize_displace_] *)

Lemma ctor_inv dg par_ops d :
  partition_data_displacer_t_ctor dg par_ops = Value d ->
  dg_ d = Some dg /\ op_ids_set_ d = list_to_set par_ops
  /\ quantize_displace_ d
     = emplace_all ∅ (discoveries dg (list_to_set par_ops) (ops_ dg)).
Proof.
  unfold partition_data_displacer_t_ctor. intros H.
  destruct (scan_ops dg (list_to_set par_ops) (ops_ dg) ∅) as [m| | | |]
    eqn:Hm; try done.
  simpl in H. injection H as <-. simpl.
  by rewrite (scan_ops_discoveries _ _ _ _ _ Hm).
Qed.

Lemma ctor_entry dg par_ops d k main_op off tensor :
  partition_data_displacer_t_ctor dg par_ops = Value d ->
  quantize_displace_ d !! k = Some (main_op, off, tensor) ->
  k = LT.id_ tensor /\ main_op ∈ ops_ dg /\ OP.id_ main_op ∈ op_ids_set_ d
  /\ OP.kind_ main_op ∈ main_op_kind
  /\ exists lt, OP.in_lts_ main_op !! off = Some lt
       /\ walk dg (op_ids_set_ d) (scan_fuel dg) (LT.id_ lt) = Found tensor.
Proof.
  intros Hctor Hk. destruct (ctor_inv _ _ _ Hctor) as (_ & Hids & Hm).
  rewrite Hm in Hk. apply emplace_all_lookup_elem in Hk as [Hk|Hk]; [done|].
  rewrite Hids. by apply discoveries_elem.
Qed.

Lemma reverse_job_outside `{backend : ref_backend} NDEBUG fuel dg op_ids
    tensor mem_replace :
  producer_outside dg op_ids (LT.id_ tensor) ->
  reverse_job NDEBUG fuel dg op_ids tensor mem_replace
  = Value (inr mem_replace).
Proof.
  intros [Hnone|(p & Hp & Hout)]; destruct fuel; simpl.
  - by rewrite Hnone.
  - by rewrite Hnone.
  - rewrite Hp. by rewrite bool_decide_eq_true_2.
  - rewrite Hp. by rewrite bool_decide_eq_true_2.
Qed.

Lemma displace_of_recorded `{backend : ref_backend} NDEBUG dg par_ops d k
    main_op off tensor mem res :
  partition_data_displacer_t_ctor dg par_ops = Value d ->
  quantize_displace_ d !! k = Some (main_op, off, tensor) ->
  displace_input_data NDEBUG d k mem res
  = fill_and_reorder main_op off tensor mem res.
Proof.
  intros Hctor Hk.
  destruct (ctor_entry _ _ _ _ _ _ _ Hctor Hk)
    as (-> & _ & _ & _ & lt & _ & Hw).
  apply walk_Found in Hw as [Hno _].
  apply no_predecessor_in_partition_spec in Hno.
  unfold displace_input_data, fill_and_reorder.
  destruct (ctor_inv _ _ _ Hctor) as (-> & _ & _). rewrite Hk.
  destruct (gen_quantize_filling _ _ _ _ _)
    as [[[status mem_replace] res']| | | |]; try done.
  simpl. destruct (negb (bool_decide (status = OK))); [done|].
  destruct (skipped_or_unimplemented res'); [done|].
  by rewrite reverse_job_outside.
Qed.

Lemma displace_of_absent `{backend : ref_backend} NDEBUG dg par_ops d lt_id
    mem res :
  partition_data_displacer_t_ctor dg par_ops = Value d ->
  quantize_displace_ d !! lt_id = None ->
  displace_input_data NDEBUG d lt_id mem res = Value (OK, mem, res).
Proof.
  intros Hctor Hnone. destruct (ctor_inv _ _ _ Hctor) as (Hdg & _ & _).
  unfold displace_input_data. by rewrite Hdg, Hnone.
Qed.

(** C4. Every entry of the map the constructor builds is keyed by the id of
    its tensor, and the producer of that tensor is empty or outside the
    partition; so the condition of the [while] loop of [displace_input_data]
    is false when the loop is entered, its body is never run, and the
    displacement is the quantize filling followed by the reorder into the
    buffer of the caller. *)
Theorem recorded_boundary_has_no_reverse_job
    (dg : deserialized_graph) (par_ops : list nat)
    (d : partition_data_displacer_t) (k : nat) (main_op : deserialized_op)
    (off : nat) (tensor : deserialized_lt) :
  partition_data_displacer_t_ctor dg par_ops = Value d ->
  quantize_displace_ d !! k = Some (main_op, off, tensor) ->
  LT.id_ tensor = k
  /\ producer_outside dg (op_ids_set_ d) k
  /\ forall (backend : ref_backend) (NDEBUG : bool),
       (forall fuel mem_replace,
          reverse_job NDEBUG fuel dg (op_ids_set_ d) tensor mem_replace
          = Value (inr mem_replace))
       /\ (forall mem res,
             displace_input_data NDEBUG d k mem res
             = fill_and_reorder main_op off tensor mem res).
Proof.
  intros Hctor Hk.
  destruct (ctor_entry _ _ _ _ _ _ _ Hctor Hk)
    as (-> & _ & _ & _ & lt & _ & Hw).
  apply walk_Found in Hw as [Hno _].
  apply no_predecessor_in_partition_spec in Hno.
  split; [done|]. split; [done|]. intros backend NDEBUG.
  split; [intros; by apply reverse_job_outside|].
  intros mem res. by eapply displace_of_recorded.
Qed.

Lemma recorded_boundary_has_no_reverse_job_witness :
  partition_data_displacer_t_ctor Examples.two_dq_graph [20; 21; 22; 23]%nat
  = Value Examples.two_dq_displacer
  /\ LT.id_ (Examples.lt 0 "u8") = 0%nat
  /\ producer_outside Examples.two_dq_graph
       (op_ids_set_ Examples.two_dq_displacer) 0
  /\ forall (backend : ref_backend) (NDEBUG : bool),
       (forall fuel mem_replace,
          reverse_job NDEBUG fuel Examples.two_dq_graph
            (op_ids_set_ Examples.two_dq_displacer) (Examples.lt 0 "u8")
            mem_replace
          = Value (inr mem_replace))
       /\ (forall mem res,
             displace_input_data NDEBUG Examples.two_dq_displacer 0 mem res
             = fill_and_reorder Examples.inner_matmul 0 (Examples.lt 0 "u8")
                 mem res).
Proof.
  split; [by vm_compute|].
  apply (recorded_boundary_has_no_reverse_job Examples.two_dq_graph
           [20; 21; 22; 23]%nat Examples.two_dq_displacer
           0 Examples.inner_matmul 0 (Examples.lt 0 "u8")).
  - by vm_compute.
  - by vm_compute.
Defined.

(** ** Keys are emplaced once *)

(** C6. The record kept under a boundary tensor id is the one of the first
    emplace call made for that id during the scan: calls made for the same id
    later on (by a later main op or input) change nothing. *)
Theorem first_discovery_is_kept
    (dg : deserialized_graph) (par_ops : list nat)
    (d : partition_data_displacer_t) (l1 l2 : list (nat * displace_t))
    (k : nat) (v : displace_t) :
  partition_data_displacer_t_ctor dg par_ops = Value d ->
  discoveries dg (op_ids_set_ d) (ops_ dg) = (l1 ++ (k, v) :: l2)%list ->
  k ∉ l1.*1 ->
  quantize_displace_ d !! k = Some v
  /\ forall m v', m !! k = Some v -> emplace k v' m = m.
Proof.
  intros Hctor Hl Hk. destruct (ctor_inv _ _ _ Hctor) as (_ & Hids & Hm).
  split.
  - rewrite Hm, <- Hids, Hl. by apply emplace_all_lookup_first.
  - intros m v' Hv. unfold emplace. by rewrite Hv.
Qed.

Lemma first_discovery_is_kept_witness :
  discoveries Examples.shared_graph (op_ids_set_ Examples.shared_displacer)
    (ops_ Examples.shared_graph)
  = [(0%nat, (Examples.add_op, 0%nat, Examples.lt 0 "u8"));
     (0%nat, (Examples.add_op, 1%nat, Examples.lt 0 "u8"));
     (0%nat, (Examples.multiply_op, 1%nat, Examples.lt 0 "u8"))]
  /\ quantize_displace_ Examples.shared_displacer !! 0%nat
     = Some (Examples.add_op, 0%nat, Examples.lt 0 "u8")
  /\ forall m v',
       m !! 0%nat = Some (Examples.add_op, 0%nat, Examples.lt 0 "u8") ->
       emplace 0 v' m = m.
Proof.
  split; [by vm_compute|].
  apply (first_discovery_is_kept Examples.shared_graph [30; 31; 32]%nat
           Examples.shared_displacer []
           [(0%nat, (Examples.add_op, 1%nat, Examples.lt 0 "u8"));
            (0%nat, (Examples.multiply_op, 1%nat, Examples.lt 0 "u8"))]
           0 (Examples.add_op, 0%nat, Examples.lt 0 "u8")).
  - by vm_compute.
  - by vm_compute.
  - apply not_elem_of_nil.
Defined.

(** ** Tensors without an entry *)

Lemma no_chain_no_discovery dg op_ids :
  ~ dequantize_to_main_op_chain dg op_ids ->
  discoveries dg op_ids (ops_ dg) = [].
Proof.
  intros Hno.
  destruct (discoveries dg op_ids (ops_ dg)) as [|[k [[aop off] t]] l] eqn:Hd;
    [done|].
  exfalso. apply Hno.
  assert ((k, (aop, off, t)) ∈ discoveries dg op_ids (ops_ dg)) as Hin
    by (rewrite Hd; apply list_elem_of_here).
  apply discoveries_elem in Hin as (_ & Hop & Hid & Hkind & lt & Hlt & Hw).
  apply walk_Found in Hw as (_ & dq & Hfed & Hdq).
  exists aop, lt, dq. repeat split; try done.
  by eapply list_elem_of_lookup_2.
Qed.

(** The partition that holds only the Add of [binary_graph "Add"] has no
    dequantize in it, and so no chain from a dequantize to a main op; yet the
    constructor records the input of the Dequantize in front of the Add,
    tensor 0, and the displacement of tensor 0 overwrites the buffer. *)
Lemma partition_without_dequantize_has_entry :
  List.filter (fun op => bool_decide (OP.id_ op ∈ [41%nat]))
    (ops_ (Examples.binary_graph "Add"))
  = [Examples.binary_op "Add"]
  /\ OP.kind_ (Examples.binary_op "Add") <> "Dequantize"
  /\ partition_data_displacer_t_ctor (Examples.binary_graph "Add") [41%nat]
     = Value add_only_displacer
  /\ quantize_displace_ add_only_displacer <> ∅
  /\ displace_input_data (backend := Examples.logging_backend INITIALIZED OK)
       false add_only_displacer 0 Examples.target {| state := UNTESTED |}
     = Value (OK, {| md_ := "target"; data_ := ["reorder"; "fill Add"] |},
              {| state := INITIALIZED |})
  /\ displace_input_data (backend := Examples.logging_backend INITIALIZED OK)
       false add_only_displacer 0 Examples.target {| state := UNTESTED |}
     <> Value (OK, Examples.target, {| state := UNTESTED |}).
Proof. repeat split; by vm_compute. Qed.

(** C7, amended.  On a displacer built by the constructor,
    [displace_input_data] for a tensor id without an entry in
    [quantize_displace_] returns [OK] at once, with the buffer and the result
    of the caller as they were.  When no dequantize of the graph, inside the
    partition or outside, feeds an input of a main op of the partition
    through go-through ops, the map is empty and this holds for every tensor
    id. *)
Theorem displace_without_entry_is_noop
    (dg : deserialized_graph) (par_ops : list nat)
    (d : partition_data_displacer_t) :
  partition_data_displacer_t_ctor dg par_ops = Value d ->
  (forall (backend : ref_backend) (NDEBUG : bool) lt_id mem res,
     quantize_displace_ d !! lt_id = None ->
     displace_input_data NDEBUG d lt_id mem res = Value (OK, mem, res))
  /\ (~ dequantize_to_main_op_chain dg (op_ids_set_ d) ->
      quantize_displace_ d = ∅
      /\ forall (backend : ref_backend) (NDEBUG : bool) lt_id mem res,
           displace_input_data NDEBUG d lt_id mem res = Value (OK, mem, res)).
Proof.
  intros Hctor. destruct (ctor_inv _ _ _ Hctor) as (Hdg & Hids & Hm).
  assert (forall (backend : ref_backend) (NDEBUG : bool) lt_id mem res,
            quantize_displace_ d !! lt_id = None ->
            displace_input_data NDEBUG d lt_id mem res = Value (OK, mem, res))
    as Hnoop.
  { intros backend NDEBUG lt_id mem res Hnone. by eapply displace_of_absent. }
  split; [done|]. intros Hno.
  assert (quantize_displace_ d = ∅) as Hempty.
  { rewrite Hm, <- Hids. by rewrite (no_chain_no_discovery _ _ Hno). }
  split; [done|]. intros backend NDEBUG lt_id mem res.
  apply Hnoop. by rewrite Hempty.
Qed.

Lemma plain_graph_has_no_chain (op_ids : gset nat) :
  ~ dequantize_to_main_op_chain Examples.plain_graph op_ids.
Proof.
  intros (aop & lt & dq & Hop & _ & Hkind & Hlt & Hfed & Hdq).
  assert (forall x p, get_op_by_out_lt Examples.plain_graph x = Some p ->
            x = 1%nat /\ p = Examples.plain_cast
            \/ x = 3%nat /\ p = Examples.plain_matmul) as Hprod.
  { intros x p. destruct x as [|[|[|[|x]]]]; cbv; intros ?; simplify_eq; auto. }
  assert (forall x, fed_by Examples.plain_graph x dq ->
            x <> 1%nat /\ x <> 0%nat) as Hnot.
  { intros x Hx. induction Hx as [x p Hp|x p lt' d Hp Hgo Hin Hx IH].
    - destruct (Hprod _ _ Hp) as [[-> ->]|[-> ->]]; [done|]. by split.
    - destruct (Hprod _ _ Hp) as [[-> ->]|[-> ->]].
      + simpl in Hin. injection Hin as <-. simpl in IH. by destruct IH.
      + apply (bool_decide_eq_true_2 _) in Hgo. by vm_compute in Hgo. }
  apply list_elem_of_In in Hop. simpl in Hop.
  destruct Hop as [<-|[<-|[]]].
  - apply (bool_decide_eq_true_2 _) in Hkind. by vm_compute in Hkind.
  - apply list_elem_of_In in Hlt. simpl in Hlt.
    destruct Hlt as [<-|[<-|[]]].
    + destruct (Hnot _ Hfed) as [H _]. by apply H.
    + inversion Hfed as [x p Hp|x p lt' d Hp _ _ _]; subst;
        by destruct (Hprod _ _ Hp) as [[? ?]|[? ?]].
Qed.

Lemma displace_without_entry_is_noop_witness :
  (forall (backend : ref_backend) (NDEBUG : bool) lt_id mem res,
     quantize_displace_ Examples.shared_displacer !! lt_id = None ->
     displace_input_data NDEBUG Examples.shared_displacer lt_id mem res
     = Value (OK, mem, res))
  /\ quantize_displace_
       {| dg_ := Some Examples.plain_graph;
          op_ids_set_ := list_to_set [50; 51]%nat;
          quantize_displace_ := ∅ |} = ∅
  /\ forall (backend : ref_backend) (NDEBUG : bool) lt_id mem res,
       displace_input_data NDEBUG
         {| dg_ := Some Examples.plain_graph;
            op_ids_set_ := list_to_set [50; 51]%nat;
            quantize_displace_ := ∅ |} lt_id mem res
       = Value (OK, mem, res).
Proof.
  split.
  - apply (displace_without_entry_is_noop Examples.shared_graph
             [30; 31; 32]%nat Examples.shared_displacer).
    by vm_compute.
  - apply (displace_without_entry_is_noop Examples.plain_graph [50; 51]%nat
             {| dg_ := Some Examples.plain_graph;
                op_ids_set_ := list_to_set [50; 51]%nat;
                quantize_displace_ := ∅ |}).
    + by vm_compute.
    + apply plain_graph_has_no_chain.
Defined.

(** The walk does not ask whether the ops it passes belong to the partition:
    a dequantize outside the partition that feeds a main op inside it is a
    boundary as well. *)
Lemma dequantize_outside_partition_is_recorded :
  scan_ops (Examples.binary_graph "Add") (list_to_set [41%nat])
    (ops_ (Examples.binary_graph "Add")) ∅
  = Value {[ 0%nat := (Examples.binary_op "Add", 0%nat, Examples.lt 0 "u8") ]}.
Proof. by vm_compute. Qed.

(** ** The table of main op kinds *)

(** C10. The kind of the elementwise subtraction, "Subtract", is not in
    [main_op_kind] (the table has "Substract"): an op of that kind in the
    partition is skipped by the scan, where the same graph with an "Add" gets
    its boundary recorded. *)
Theorem subtract_is_not_scanned :
  ("Subtract" ∉ main_op_kind)
  /\ scan_ops (Examples.binary_graph "Subtract") (list_to_set [40; 41]%nat)
       (ops_ (Examples.binary_graph "Subtract")) ∅
     = Value ∅
  /\ scan_ops (Examples.binary_graph "Add") (list_to_set [40; 41]%nat)
       (ops_ (Examples.binary_graph "Add")) ∅
     = Value {[ 0%nat := (Examples.binary_op "Add", 0%nat,
                          Examples.lt 0 "u8") ]}.
Proof.
  split; [|split; by vm_compute].
  apply (bool_decide_eq_false_1 ("Subtract" ∈ main_op_kind)). by vm_compute.
Qed.

(** ** Inverting the order of a transpose *)

Section invert_order_facts.
Local Open Scope Z_scope.

Lemma new_order_index_lt (ndims : nat) (o : Z) :
  ndims <> 0%nat -> (new_order_index ndims o < ndims)%nat.
Proof.
  intros Hn. unfold new_order_index.
  pose proof (Z.mod_pos_bound (size_t_wrap (o + Z.of_nat ndims))
                (Z.of_nat ndims)).
  lia.
Qed.

Lemma new_order_index_id (ndims : nat) (o : Z) :
  Z.of_nat ndims < 2 ^ 63 -> 0 <= o < Z.of_nat ndims ->
  new_order_index ndims o = Z.to_nat o.
Proof.
  intros Hn Ho. unfold new_order_index, size_t_wrap.
  rewrite (Z.mod_small (o + Z.of_nat ndims)) by lia.
  replace (o + Z.of_nat ndims) with (o + 1 * Z.of_nat ndims) by lia.
  rewrite Z.mod_add by lia. by rewrite Z.mod_small by lia.
Qed.

Lemma fill_new_order_length ndims i order new_order :
  length (fill_new_order ndims i order new_order) = length new_order.
Proof.
  revert i new_order. induction order as [|o rest IH]; intros i acc; [done|].
  simpl. by rewrite IH, length_insert.
Qed.

(** Positions that no entry of [order] is sent to are left alone. *)
Lemma fill_new_order_frame ndims i order new_order (x : nat) :
  x ∉ new_order_index ndims <$> order ->
  fill_new_order ndims i order new_order !! x = new_order !! x.
Proof.
  revert i new_order. induction order as [|o rest IH]; intros i acc Hx;
    [done|].
  rewrite fmap_cons in Hx. apply not_elem_of_cons in Hx as [Hne Hx].
  simpl. rewrite IH by done. by apply list_lookup_insert_ne.
Qed.

Lemma fill_new_order_lookup ndims i order new_order (j : nat) o :
  NoDup (new_order_index ndims <$> order) ->
  Forall (fun o => (new_order_index ndims o < length new_order)%nat) order ->
  order !! j = Some o ->
  fill_new_order ndims i order new_order !! new_order_index ndims o
  = Some (Z.of_nat (i + j)).
Proof.
  revert i j new_order.
  induction order as [|o' rest IH]; intros i j acc Hnd Hlt Hj; [done|].
  rewrite fmap_cons in Hnd. apply NoDup_cons in Hnd as [Hfresh Hnd].
  apply Forall_cons in Hlt as [Hlt' Hlt]. simpl.
  destruct j as [|j]; simpl in Hj.
  - injection Hj as ->. rewrite fill_new_order_frame by done.
    rewrite list_lookup_insert_eq by done. do 2 f_equal. lia.
  - rewrite (IH (S i) j); [do 2 f_equal; lia|done| |done].
    eapply Forall_impl; [done|]. intros ? ?. by rewrite length_insert.
Qed.

Lemma invert_order_length order :
  length (invert_order order) = length order.
Proof.
  unfold invert_order. by rewrite fill_new_order_length, length_replicate.
Qed.

(** [new_order[(order[k] + n) % n] = k] holds on return when no two
    entries of [order] are sent to the same position. *)
Lemma invert_order_lookup order (k : nat) o :
  NoDup (new_order_index (length order) <$> order) ->
  order !! k = Some o ->
  invert_order order !! new_order_index (length order) o
  = Some (Z.of_nat k).
Proof.
  intros Hnd Hk. unfold invert_order.
  rewrite (fill_new_order_lookup _ 0 _ _ k o); [done|done| |done].
  apply Forall_forall. intros o' _. rewrite length_replicate.
  apply new_order_index_lt. apply lookup_lt_Some in Hk. lia.
Qed.

Section valid.
Variable order : list Z.
Hypothesis Hvalid : valid_order order.
Hypothesis Hsize : Z.of_nat (length order) < 2 ^ 63.

Lemma valid_order_range o :
  o ∈ order <-> 0 <= o < Z.of_nat (length order).
Proof.
  rewrite (elem_of_Permutation_proper o _ _ Hvalid), elem_of_seqZ. lia.
Qed.

Lemma valid_order_index o :
  o ∈ order -> new_order_index (length order) o = Z.to_nat o.
Proof.
  intros Ho. apply new_order_index_id; [done|]. by apply valid_order_range.
Qed.

Lemma valid_order_NoDup : NoDup order.
Proof.
  apply (NoDup_Permutation_proper _ _ Hvalid), NoDup_seqZ.
Qed.

Lemma valid_order_NoDup_index :
  NoDup (new_order_index (length order) <$> order).
Proof.
  apply NoDup_fmap_2_strong; [|apply valid_order_NoDup].
  intros o1 o2 H1 H2. rewrite !valid_order_index by done.
  apply valid_order_range in H1, H2. lia.
Qed.

(** Position [order[k]] of the inverse holds [k]. *)
Lemma valid_order_inverse (k : nat) o :
  order !! k = Some o ->
  invert_order order !! Z.to_nat o = Some (Z.of_nat k).
Proof.
  intros Hk. rewrite <- valid_order_index by by eapply list_elem_of_lookup_2.
  apply invert_order_lookup; [apply valid_order_NoDup_index | done].
Qed.

(** Every position of the inverse is of that form. *)
Lemma valid_order_inverse_at (j : nat) :
  (j < length order)%nat ->
  exists k : nat, order !! k = Some (Z.of_nat j)
                  /\ invert_order order !! j = Some (Z.of_nat k).
Proof.
  intros Hj. assert (Z.of_nat j ∈ order) as Hin
    by (apply valid_order_range; lia).
  apply list_elem_of_lookup_1 in Hin as [k Hk]. exists k. split; [done|].
  rewrite <- (Nat2Z.id j) at 1. by apply valid_order_inverse.
Qed.

Lemma invert_order_valid : valid_order (invert_order order).
Proof.
  unfold valid_order. rewrite invert_order_length.
  apply NoDup_Permutation; [|apply NoDup_seqZ|].
  - apply NoDup_alt. intros j1 j2 x H1 H2.
    pose proof (lookup_lt_Some _ _ _ H1) as Hj1.
    pose proof (lookup_lt_Some _ _ _ H2) as Hj2.
    rewrite invert_order_length in Hj1, Hj2.
    destruct (valid_order_inverse_at j1 Hj1) as (k1 & Hk1 & Hq1).
    destruct (valid_order_inverse_at j2 Hj2) as (k2 & Hk2 & Hq2).
    assert (Z.of_nat k1 = Z.of_nat k2) as Heq by congruence.
    apply Nat2Z.inj in Heq as ->.
    rewrite Hk1 in Hk2. injection Hk2. lia.
  - intros x. rewrite elem_of_seqZ. split.
    + intros Hx. apply list_elem_of_lookup_1 in Hx as [j Hj].
      pose proof (lookup_lt_Some _ _ _ Hj) as Hlt.
      rewrite invert_order_length in Hlt.
      destruct (valid_order_inverse_at j Hlt) as (k & Hk & Hq).
      rewrite Hj in Hq. injection Hq as ->.
      apply lookup_lt_Some in Hk. lia.
    + intros Hx.
      destruct (lookup_lt_is_Some_2 order (Z.to_nat x)) as [o Ho]; [lia|].
      apply valid_order_inverse in Ho. rewrite Z2Nat.id in Ho by lia.
      by eapply list_elem_of_lookup_2.
Qed.
End valid.

Lemma invert_order_involutive order :
  valid_order order -> Z.of_nat (length order) < 2 ^ 63 ->
  invert_order (invert_order order) = order.
Proof.
  intros Hvalid Hsize.
  pose proof (invert_order_valid order Hvalid Hsize) as Hvalid'.
  assert (Z.of_nat (length (invert_order order)) < 2 ^ 63) as Hsize'
    by by rewrite invert_order_length.
  apply list_eq. intros k.
  destruct (decide (k < length order)%nat) as [Hk|Hk].
  - destruct (lookup_lt_is_Some_2 order k Hk) as [o Ho]. rewrite Ho.
    pose proof (valid_order_inverse order Hvalid Hsize k o Ho) as Hq.
    pose proof (valid_order_inverse _ Hvalid' Hsize' _ _ Hq) as Hr.
    rewrite Nat2Z.id in Hr. rewrite Hr. f_equal.
    assert (o ∈ order) as Hin by by eapply list_elem_of_lookup_2.
    apply (valid_order_range order Hvalid) in Hin. lia.
  - rewrite !lookup_ge_None_2; [done|lia|].
    rewrite !invert_order_length. lia.
Qed.

Lemma transpose_by_inverse {A} `{Inhabited A} order (s : list A) :
  valid_order order -> Z.of_nat (length order) < 2 ^ 63 ->
  length s = length order ->
  transpose_by (invert_order order) (transpose_by order s) = s.
Proof.
  intros Hvalid Hsize Hlen. apply list_eq. intros j.
  unfold transpose_by at 1. rewrite list_lookup_fmap.
  destruct (decide (j < length order)%nat) as [Hj|Hj].
  - destruct (valid_order_inverse_at order Hvalid Hsize j Hj)
      as (k & Hk & Hq).
    rewrite Hq. simpl. rewrite Nat2Z.id.
    assert (transpose_by order s !! k = Some (s !!! j)) as Ht.
    { unfold transpose_by. rewrite list_lookup_fmap, Hk. simpl.
      by rewrite Nat2Z.id. }
    rewrite (list_lookup_total_correct _ _ _ Ht).
    symmetry. apply list_lookup_lookup_total_lt. lia.
  - rewrite !lookup_ge_None_2; [done|lia|].
    rewrite invert_order_length. lia.
Qed.
End invert_order_facts.

(** With negative entries, which the loop normalises, inverting twice gives
    the normalised order. *)
Lemma invert_order_negative_entries :
  invert_order [-1; 0; 1]%Z = [1; 2; 0]%Z
  /\ invert_order (invert_order [-1; 0; 1]%Z) = [2; 0; 1]%Z.
Proof. by vm_compute. Qed.

(** ** Displacement when the filling is skipped *)

(** C8. When the reference primitive reports the op of the quantize filling
    as skipped or unimplemented, [displace_input_data] returns [OK] and the
    buffer of the caller is what it was. *)
Theorem skipped_filling_leaves_buffer `{backend : ref_backend}
    (NDEBUG : bool) (d : partition_data_displacer_t) (dg : deserialized_graph)
    (lt_id : nat) (main_op : deserialized_op) (off : nat)
    (tensor : deserialized_lt) (op : deserialized_op) (mem : mem_t)
    (res res' : res_t) :
  dg_ d = Some dg ->
  quantize_displace_ d !! lt_id = Some (main_op, off, tensor) ->
  quantize_filling_op main_op (LT.data_type_ tensor) = Value op ->
  state (init_prb op res) <> INVALID_ARGUMENTS ->
  filling_skipped op (init_prb op res) res' ->
  displace_input_data NDEBUG d lt_id mem res = Value (OK, mem, res').
Proof.
  intros Hdg Hk Hop Hvalid Hskip.
  unfold displace_input_data. rewrite Hdg, Hk.
  unfold gen_quantize_filling. rewrite Hop. simpl.
  rewrite bool_decide_eq_false_2 by done.
  destruct Hskip as [res1 Hprim Hs1|res1 res2 Hprim Hs1 Hmem Hs2].
  - rewrite Hprim. unfold SAFE_V. simpl. rewrite Hs1. simpl. by rewrite Hs1.
  - rewrite Hprim. unfold SAFE_V. simpl. rewrite Hs1, Hmem. simpl.
    rewrite Hs2. simpl. by rewrite Hs2.
Qed.

Lemma skipped_filling_leaves_buffer_witness :
  displace_input_data (backend := Examples.logging_backend SKIPPED OK) false
    Examples.two_dq_displacer 0 Examples.target {| state := UNTESTED |}
  = Value (OK, Examples.target, {| state := SKIPPED |}).
Proof.
  apply (skipped_filling_leaves_buffer
           (backend := Examples.logging_backend SKIPPED OK) false
           Examples.two_dq_displacer Examples.two_dq_graph 0
           Examples.inner_matmul 0 (Examples.lt 0 "u8")
           (Examples.op 23 "MatMul"
              [Examples.lt 3 "u8"; Examples.lt 4 "s8"] [Examples.lt 5 "f32"])).
  - reflexivity.
  - by vm_compute.
  - by vm_compute.
  - by vm_compute.
  - apply skipped_at_init_prim; by vm_compute.
Defined.

(** ** An op of another kind in the reverse job *)

Lemma opstr2kind_other (k : string) :
  k ∉ go_through_op_kind -> opstr2kind k = kind.Other k.
Proof.
  unfold go_through_op_kind. rewrite elem_of_list_to_set. intros Hk.
  repeat (apply not_elem_of_cons in Hk as [? Hk]).
  unfold opstr2kind.
  repeat match goal with
         | H : k ≠ _ |- _ => rewrite (proj2 (String.eqb_neq _ _) H); clear H
         end.
  done.
Qed.

(** The [default] label of the switch, for a state of the displacer in which
    the loop is entered at an op of the partition whose kind is none of
    StaticTranspose, StaticReshape, TypeCast, Quantize and Dequantize (by
    [reverse_job_outside] and [ctor_entry] no displacer the constructor
    builds is in such a state): without [NDEBUG] the assertion fails; with
    [NDEBUG] the function returns [FAIL] and leaves the buffer of the caller
    alone. *)
Lemma default_label_of_reverse_job `{backend : ref_backend}
    (NDEBUG : bool) (d : partition_data_displacer_t) (dg : deserialized_graph)
    (lt_id : nat) (main_op : deserialized_op) (off : nat)
    (tensor : deserialized_lt) (parent_op : deserialized_op) (mem : mem_t)
    (res : res_t) (mem_replace : mem_t) (res' : res_t) :
  dg_ d = Some dg ->
  quantize_displace_ d !! lt_id = Some (main_op, off, tensor) ->
  gen_quantize_filling main_op
    (get_prim_arg_name_from_graph_op_input_offset
       (opstr2kind (OP.kind_ main_op)) off)
    empty_mem (LT.data_type_ tensor) res
  = Value (OK, mem_replace, res') ->
  skipped_or_unimplemented res' = false ->
  get_op_by_out_lt dg (LT.id_ tensor) = Some parent_op ->
  OP.id_ parent_op ∈ op_ids_set_ d ->
  OP.kind_ parent_op ∉ go_through_op_kind ->
  (forall fuel mem_replace,
     reverse_job NDEBUG (S fuel) dg (op_ids_set_ d) tensor mem_replace
     = if NDEBUG then Value (inl FAIL) else Aborted)
  /\ displace_input_data NDEBUG d lt_id mem res
     = (if NDEBUG then Value (FAIL, mem, res') else Aborted)
  /\ (NDEBUG = false ->
      (forall r, displace_input_data NDEBUG d lt_id mem res <> Value r)
      /\ (forall c, displace_input_data NDEBUG d lt_id mem res <> Exited c)).
Proof.
  intros Hdg Hk Hfill Hskip Hp Hin Hkind.
  assert (forall fuel mem_replace,
            reverse_job NDEBUG (S fuel) dg (op_ids_set_ d) tensor mem_replace
            = if NDEBUG then Value (inl FAIL) else Aborted) as Hjob.
  { intros fuel mr. simpl. rewrite Hp.
    rewrite bool_decide_eq_false_2 by (intros Hn; by apply Hn).
    unfold reverse_op. simpl. by rewrite (opstr2kind_other _ Hkind). }
  assert (displace_input_data NDEBUG d lt_id mem res
          = (if NDEBUG then Value (FAIL, mem, res') else Aborted)) as Hd.
  { unfold displace_input_data. rewrite Hdg, Hk, Hfill. simpl.
    rewrite Hskip.
    assert (exists n, length (ops_ dg) = S n) as [n ->].
    { apply get_op_by_out_lt_elem in Hp.
      destruct (ops_ dg); [by apply elem_of_nil in Hp | by eexists]. }
    rewrite Hjob. by destruct NDEBUG. }
  split; [done|]. split; [done|].
  intros ->. rewrite Hd. by split.
Qed.

(** ** The chain transpose, dequantize, matmul *)

(** On [chain_graph] with the logging backend, whose reorder overwrites the
    buffer: whether the transpose belongs to the partition or not, there is no
    entry under tensor 2, the first input of the MatMul, and the displacement
    of tensor 2 returns [OK] with the buffer as it was. *)
Lemma displace_on_matmul_input_does_nothing :
  partition_data_displacer_t_ctor Examples.chain_graph [10; 11; 12]%nat
  = Value Examples.chain_displacer_all
  /\ quantize_displace_ Examples.chain_displacer_all !! 2%nat = None
  /\ displace_input_data (backend := Examples.logging_backend INITIALIZED OK)
       false Examples.chain_displacer_all 2 Examples.target
       {| state := UNTESTED |}
     = Value (OK, Examples.target, {| state := UNTESTED |})
  /\ partition_data_displacer_t_ctor Examples.chain_graph [11; 12]%nat
     = Value Examples.chain_displacer_inner
  /\ quantize_displace_ Examples.chain_displacer_inner !! 2%nat = None
  /\ displace_input_data (backend := Examples.logging_backend INITIALIZED OK)
       false Examples.chain_displacer_inner 2 Examples.target
       {| state := UNTESTED |}
     = Value (OK, Examples.target, {| state := UNTESTED |}).
Proof. repeat split; by vm_compute. Qed.

(** C3, amended.  For the chain graph input, StaticTranspose with order
    [1,0,2], Dequantize, MatMul: with all ops in the partition the scan records
    nothing and [displace_input_data] does nothing for any tensor id; with the
    transpose outside the partition the boundary is recorded under the input
    of the dequantize (tensor 1), the displacement of the first input of the
    MatMul (tensor 2) does nothing, and the displacement of tensor 1 is the
    quantize filling followed by the reorder, no op being reversed.  Reversing
    the dequantize gives a Quantize, and reversing the transpose gives the
    order [1,0,2]. *)
Theorem transpose_dequantize_matmul_chain :
  partition_data_displacer_t_ctor Examples.chain_graph [10; 11; 12]%nat
  = Value Examples.chain_displacer_all
  /\ quantize_displace_ Examples.chain_displacer_all = ∅
  /\ (forall (backend : ref_backend) (NDEBUG : bool) lt_id mem res,
        displace_input_data NDEBUG Examples.chain_displacer_all lt_id mem res
        = Value (OK, mem, res))
  /\ partition_data_displacer_t_ctor Examples.chain_graph [11; 12]%nat
     = Value Examples.chain_displacer_inner
  /\ quantize_displace_ Examples.chain_displacer_inner
     = {[ 1%nat := (Examples.matmul_op, 0%nat, Examples.lt 1 "u8") ]}
  /\ (forall (backend : ref_backend) (NDEBUG : bool) mem res,
        displace_input_data NDEBUG Examples.chain_displacer_inner 2 mem res
        = Value (OK, mem, res))
  /\ (forall (backend : ref_backend) (NDEBUG : bool) mem res,
        displace_input_data NDEBUG Examples.chain_displacer_inner 1 mem res
        = fill_and_reorder Examples.matmul_op 0 (Examples.lt 1 "u8") mem res)
  /\ OP.kind_ <$> reverse_op (swap_lts Examples.dequantize_op)
     = Some "Quantize"
  /\ (fun op => get_attr_s64_vector op "order")
       <$> reverse_op (swap_lts Examples.transpose_op)
     = Some [1; 0; 2]%Z
  /\ invert_order [1; 0; 2]%Z = [1; 0; 2]%Z.
Proof.
  assert (partition_data_displacer_t_ctor Examples.chain_graph [10; 11; 12]%nat
          = Value Examples.chain_displacer_all) as Hall by by vm_compute.
  assert (partition_data_displacer_t_ctor Examples.chain_graph [11; 12]%nat
          = Value Examples.chain_displacer_inner) as Hinner by by vm_compute.
  split; [done|]. split; [done|]. split.
  { intros backend NDEBUG lt_id mem res.
    by apply (displace_of_absent _ _ _ _ _ _ _ Hall). }
  split; [done|]. split; [done|]. split.
  { intros backend NDEBUG mem res.
    by apply (displace_of_absent _ _ _ _ _ _ _ Hinner). }
  split.
  { intros backend NDEBUG mem res.
    by apply (displace_of_recorded _ _ _ _ _ _ _ _ _ _ Hinner). }
  repeat split; by vm_compute.
Qed.

(** * Further properties of the scan *)

Section scan_more.
Variable dg : deserialized_graph.
Variable op_ids : gset nat.

Lemma walk_Found_dequantize fuel x t :
  walk dg op_ids fuel x = Found t ->
  exists y dq,
    reaches dg op_ids x y /\ get_op_by_out_lt dg y = Some dq
    /\ OP.kind_ dq = "Dequantize" /\ OP.in_lts_ dq !! 0%nat = Some t
    /\ producer_outside dg op_ids (LT.id_ t).
Proof.
  revert x. induction fuel as [|fuel IH]; intros x H; simpl in H; [done|].
  destruct (scan_step dg op_ids x) as [t'| |lt|] eqn:Hs; try done.
  - injection H as ->. pose proof Hs as Hs'. unfold scan_step in Hs'.
    destruct (get_op_by_out_lt dg x) as [p|] eqn:Hp; [|done].
    destruct (String.eqb (OP.kind_ p) "Dequantize") eqn:Hk.
    + apply String.eqb_eq in Hk.
      destruct (OP.in_lts_ p !! 0%nat) as [t'|] eqn:Hin; [|done].
      destruct (no_predecessor_in_partition dg op_ids (LT.id_ t')) eqn:Hno.
      * injection Hs' as ->. exists x, p.
        split; [apply reaches_here|]. repeat split; try done.
        by apply no_predecessor_in_partition_spec.
      * unfold continue_on_allowed in Hs'. repeat case_match; done.
    + unfold continue_on_allowed in Hs'. repeat case_match; done.
  - destruct (IH _ H) as (y & dq & Hreach & Hrest).
    exists y, dq. split; [by eapply reaches_next | done].
Qed.

Lemma reaches_fed_by x y dq :
  reaches dg op_ids x y -> get_op_by_out_lt dg y = Some dq -> fed_by dg x dq.
Proof.
  induction 1 as [x|x lt y Hs Hreach IH]; intros Hy; [by constructor|].
  apply scan_step_Next in Hs as (p & Hp & Hgo & Hin).
  eapply fed_through; eauto.
Qed.

Lemma walk_accepted lt x dq t :
  reaches dg op_ids lt x -> get_op_by_out_lt dg x = Some dq ->
  OP.kind_ dq = "Dequantize" -> OP.in_lts_ dq !! 0%nat = Some t ->
  producer_outside dg op_ids (LT.id_ t) ->
  walk dg op_ids (scan_fuel dg) lt = Found t.
Proof.
  intros Hreach Hp Hk Hin Hout.
  rewrite (walk_reaches dg op_ids _ _ Hreach), walk_scan_fuel_unfold.
  rewrite (scan_step_dequantize dg op_ids x dq t Hp Hk Hin).
  apply no_predecessor_in_partition_spec in Hout. by rewrite Hout.
Qed.

Lemma input_discoveries_intro aop i lts (j : nat) lt t :
  lts !! j = Some lt ->
  walk dg op_ids (scan_fuel dg) (LT.id_ lt) = Found t ->
  (LT.id_ t, (aop, (i + j)%nat, t)) ∈ input_discoveries dg op_ids aop i lts.
Proof.
  revert i j. induction lts as [|lt' rest IH]; intros i j Hj Hw; [done|].
  simpl. apply elem_of_app. destruct j as [|j]; simpl in Hj.
  - injection Hj as ->. left. unfold discovery. rewrite Hw.
    rewrite Nat.add_0_r. apply list_elem_of_here.
  - right. replace (i + S j)%nat with (S i + j)%nat by lia. by apply IH.
Qed.

Lemma discoveries_intro ops aop i lt t :
  aop ∈ ops -> OP.id_ aop ∈ op_ids -> OP.kind_ aop ∈ main_op_kind ->
  OP.in_lts_ aop !! i = Some lt ->
  walk dg op_ids (scan_fuel dg) (LT.id_ lt) = Found t ->
  (LT.id_ t, (aop, i, t)) ∈ discoveries dg op_ids ops.
Proof.
  intros Hin Hid Hkind Hlt Hw.
  induction ops as [|aop' rest IH]; [by apply elem_of_nil in Hin|].
  simpl. apply elem_of_cons in Hin as [<-|Hin].
  - rewrite bool_decide_eq_false_2 by (intros Hn; by apply Hn).
    rewrite bool_decide_eq_false_2 by (intros Hn; by apply Hn).
    apply elem_of_app. left.
    by apply (input_discoveries_intro aop 0 (OP.in_lts_ aop) i lt t).
  - repeat case_match; try by apply IH.
    apply elem_of_app. right. by apply IH.
Qed.

Lemma emplace_all_lookup_is_Some m l k v :
  (k, v) ∈ l -> is_Some (emplace_all m l !! k).
Proof.
  revert m. induction l as [|[k' v'] l IH]; intros m Hin;
    [by apply elem_of_nil in Hin|].
  simpl. apply elem_of_cons in Hin as [Heq|Hin]; [|by apply IH].
  injection Heq as <- <-.
  destruct (m !! k) as [v0|] eqn:Hk.
  - exists v0. apply emplace_all_lookup_Some. unfold emplace. by rewrite Hk.
  - exists v. apply emplace_all_lookup_Some. unfold emplace. rewrite Hk.
    apply lookup_insert_eq.
Qed.
End scan_more.

(** X1. Every entry of the map built by the constructor comes from an input
    of a main op of the partition: the main op is an op of the graph, its id
    is in the partition, its kind is in [main_op_kind], and the walk from
    its input number [off] passes go-through ops only and reaches a
    dequantize whose first input is the recorded tensor. *)
Theorem recorded_entry_is_dequantize_input
    (dg : deserialized_graph) (par_ops : list nat)
    (d : partition_data_displacer_t) (k : nat) (main_op : deserialized_op)
    (off : nat) (tensor : deserialized_lt) :
  partition_data_displacer_t_ctor dg par_ops = Value d ->
  quantize_displace_ d !! k = Some (main_op, off, tensor) ->
  main_op ∈ ops_ dg /\ OP.id_ main_op ∈ op_ids_set_ d
  /\ OP.kind_ main_op ∈ main_op_kind
  /\ exists lt y dq,
       OP.in_lts_ main_op !! off = Some lt
       /\ reaches dg (op_ids_set_ d) (LT.id_ lt) y
       /\ fed_by dg (LT.id_ lt) dq
       /\ get_op_by_out_lt dg y = Some dq
       /\ OP.kind_ dq = "Dequantize"
       /\ OP.in_lts_ dq !! 0%nat = Some tensor.
Proof.
  intros Hctor Hk.
  destruct (ctor_entry _ _ _ _ _ _ _ Hctor Hk)
    as (_ & Hop & Hid & Hkind & lt & Hlt & Hw).
  split; [done|]. split; [done|]. split; [done|].
  apply walk_Found_dequantize in Hw as (y & dq & Hreach & Hy & Hdq & Hin & _).
  exists lt, y, dq. repeat split; try done.
  by eapply reaches_fed_by.
Qed.

Lemma recorded_entry_is_dequantize_input_witness :
  Examples.inner_matmul ∈ ops_ Examples.two_dq_graph
  /\ OP.id_ Examples.inner_matmul ∈ op_ids_set_ Examples.two_dq_displacer
  /\ OP.kind_ Examples.inner_matmul ∈ main_op_kind
  /\ exists lt y dq,
       OP.in_lts_ Examples.inner_matmul !! 0%nat = Some lt
       /\ reaches Examples.two_dq_graph
            (op_ids_set_ Examples.two_dq_displacer) (LT.id_ lt) y
       /\ fed_by Examples.two_dq_graph (LT.id_ lt) dq
       /\ get_op_by_out_lt Examples.two_dq_graph y = Some dq
       /\ OP.kind_ dq = "Dequantize"
       /\ OP.in_lts_ dq !! 0%nat = Some (Examples.lt 0 "u8").
Proof.
  apply (recorded_entry_is_dequantize_input Examples.two_dq_graph
           [20; 21; 22; 23]%nat Examples.two_dq_displacer 0
           Examples.inner_matmul 0 (Examples.lt 0 "u8")).
  - by vm_compute.
  - by vm_compute.
Defined.

(** X2. The scan misses no boundary: when the walk from an input of a main
    op of the partition reaches a dequantize whose own input has no producer
    in the partition, the map built by the constructor has an entry under
    the id of that input, for a tensor with that id. *)
Theorem accepted_dequantize_has_entry
    (dg : deserialized_graph) (par_ops : list nat)
    (d : partition_data_displacer_t) (aop : deserialized_op) (i : nat)
    (lt : deserialized_lt) (x : nat) (dq : deserialized_op)
    (t : deserialized_lt) :
  partition_data_displacer_t_ctor dg par_ops = Value d ->
  aop ∈ ops_ dg -> OP.id_ aop ∈ op_ids_set_ d ->
  OP.kind_ aop ∈ main_op_kind ->
  OP.in_lts_ aop !! i = Some lt ->
  reaches dg (op_ids_set_ d) (LT.id_ lt) x ->
  get_op_by_out_lt dg x = Some dq ->
  OP.kind_ dq = "Dequantize" ->
  OP.in_lts_ dq !! 0%nat = Some t ->
  producer_outside dg (op_ids_set_ d) (LT.id_ t) ->
  exists main_op off tensor,
    quantize_displace_ d !! LT.id_ t = Some (main_op, off, tensor)
    /\ LT.id_ tensor = LT.id_ t.
Proof.
  intros Hctor Hop Hid Hkind Hlt Hreach Hx Hdq Hin Hout.
  pose proof (walk_accepted _ _ _ _ _ _ Hreach Hx Hdq Hin Hout) as Hw.
  pose proof (discoveries_intro _ _ _ _ _ _ _ Hop Hid Hkind Hlt Hw) as Hd.
  destruct (ctor_inv _ _ _ Hctor) as (_ & Hids & Hm).
  rewrite Hids in Hd.
  destruct (emplace_all_lookup_is_Some ∅ _ _ _ Hd)
    as [[[main_op off] tensor] Hv].
  rewrite <- Hm in Hv. exists main_op, off, tensor. split; [done|].
  by destruct (ctor_entry _ _ _ _ _ _ _ Hctor Hv) as (-> & _).
Qed.

Lemma accepted_dequantize_has_entry_witness :
  exists main_op off tensor,
    quantize_displace_ Examples.shared_displacer
      !! LT.id_ (Examples.lt 0 "u8")
    = Some (main_op, off, tensor)
    /\ LT.id_ tensor = LT.id_ (Examples.lt 0 "u8").
Proof.
  apply (accepted_dequantize_has_entry Examples.shared_graph
           [30; 31; 32]%nat Examples.shared_displacer Examples.multiply_op 1
           (Examples.lt 1 "f32") 1 Examples.shared_dq (Examples.lt 0 "u8")).
  - by vm_compute.
  - apply list_elem_of_In. simpl. auto.
  - by vm_compute.
  - apply (bool_decide_eq_true_1 ("Multiply" ∈ main_op_kind)). by vm_compute.
  - reflexivity.
  - apply reaches_here.
  - reflexivity.
  - reflexivity.
  - reflexivity.
  - by left.
Defined.

(** X3. A walk of the scan that ends has gone through pairwise distinct
    tensors, at most one per op of the graph, and ends in the same way within
    the [scan_fuel] iterations the constructor allows. *)
Theorem scan_walk_ends_within_graph_size
    (dg : deserialized_graph) (op_ids : gset nat) (fuel x : nat) (r : walk_t) :
  walk dg op_ids fuel x = r -> r <> Diverge ->
  walk dg op_ids (scan_fuel dg) x = r
  /\ exists l, run dg op_ids x l r /\ NoDup l
       /\ (length l <= length (ops_ dg))%nat.
Proof.
  intros Hw Hr. destruct (walk_run _ _ _ _ _ Hw Hr) as (l & Hl & _).
  split.
  - apply walk_scan_fuel_run. eauto.
  - exists l. split; [done|]. split; [by eapply run_NoDup|].
    by eapply run_length.
Qed.

Lemma scan_walk_ends_within_graph_size_witness :
  walk Examples.two_dq_graph Examples.two_dq_all
    (scan_fuel Examples.two_dq_graph) 3
  = Found (Examples.lt 0 "u8")
  /\ exists l,
       run Examples.two_dq_graph Examples.two_dq_all 3 l
         (Found (Examples.lt 0 "u8"))
       /\ NoDup l /\ (length l <= length (ops_ Examples.two_dq_graph))%nat.
Proof.
  apply (scan_walk_ends_within_graph_size Examples.two_dq_graph
           Examples.two_dq_all 100 3 (Found (Examples.lt 0 "u8"))).
  - by vm_compute.
  - discriminate.
Defined.

(** X4. On a graph sorted in chronological order whose go-through ops all
    have an input, the constructor returns: no walk of the scan reads the
    first input of an op without inputs, and none goes on for ever.  The
    displacer it returns refers to the graph and holds the ids of the
    partition. *)
Theorem constructor_returns_on_sorted_graph
    (dg : deserialized_graph) (par_ops : list nat) :
  chronological dg -> go_through_ops_have_input dg ->
  exists d, partition_data_displacer_t_ctor dg par_ops = Value d
    /\ dg_ d = Some dg /\ op_ids_set_ d = list_to_set par_ops.
Proof.
  intros Hc Hi. destruct (ctor_returns dg par_ops Hc Hi) as [d Hd].
  exists d. split; [done|].
  by destruct (ctor_inv _ _ _ Hd) as (? & ? & _).
Qed.

Lemma two_dq_graph_chronological : chronological Examples.two_dq_graph.
Proof.
  intros j op lt p Hj Hlt Hp.
  destruct j as [|[|[|[|j]]]]; simpl in Hj; [| | | |done];
    injection Hj as <-; apply list_elem_of_In in Hlt; simpl in Hlt;
    repeat (destruct Hlt as [<-|Hlt]; [vm_compute in Hp|]); try done;
    injection Hp as <-.
  - exists 0%nat. split; [lia | done].
  - exists 1%nat. split; [lia | done].
  - exists 2%nat. split; [lia | done].
Qed.

Lemma two_dq_graph_inputs : go_through_ops_have_input Examples.two_dq_graph.
Proof.
  intros op Hop _. apply list_elem_of_In in Hop. simpl in Hop.
  repeat (destruct Hop as [<-|Hop]; [done|]). done.
Qed.

Lemma constructor_returns_on_sorted_graph_witness :
  exists d,
    partition_data_displacer_t_ctor Examples.two_dq_graph [21; 22; 23]%nat
    = Value d
    /\ dg_ d = Some Examples.two_dq_graph
    /\ op_ids_set_ d = list_to_set [21; 22; 23]%nat.
Proof.
  apply (constructor_returns_on_sorted_graph Examples.two_dq_graph
           [21; 22; 23]%nat).
  - apply two_dq_graph_chronological.
  - apply two_dq_graph_inputs.
Defined.

Lemma scan_ops_no_main_op dg op_ids ops m :
  (forall op, op ∈ ops -> OP.id_ op ∈ op_ids ->
     OP.kind_ op ∉ main_op_kind) ->
  scan_ops dg op_ids ops m = Value m.
Proof.
  induction ops as [|aop rest IH]; intros Hno; [done|]. simpl.
  assert (scan_ops dg op_ids rest m = Value m) as Hrest.
  { apply IH. intros op Hop. apply Hno. by apply list_elem_of_further. }
  destruct (bool_decide (OP.id_ aop ∉ op_ids)) eqn:Hid; [done|].
  apply bool_decide_eq_false_1 in Hid.
  rewrite bool_decide_eq_true_2; [done|].
  apply Hno; [apply list_elem_of_here|].
  by destruct (decide (OP.id_ aop ∈ op_ids)).
Qed.

(** X5. When no op of the partition has a kind of [main_op_kind] (an empty
    partition, say), the constructor returns a displacer with an empty map,
    whatever the graph looks like: no walk is made at all. *)
Theorem partition_without_main_op_has_no_entry
    (dg : deserialized_graph) (par_ops : list nat) :
  (forall op, op ∈ ops_ dg -> OP.id_ op ∈ par_ops ->
     OP.kind_ op ∉ main_op_kind) ->
  partition_data_displacer_t_ctor dg par_ops
  = Value {| dg_ := Some dg; op_ids_set_ := list_to_set par_ops;
             quantize_displace_ := ∅ |}.
Proof.
  intros Hno. unfold partition_data_displacer_t_ctor.
  rewrite scan_ops_no_main_op; [done|].
  intros op Hop Hid. apply Hno; [done|].
  by apply elem_of_list_to_set in Hid.
Qed.

(** A graph whose only op consumes its own output: a walk on it would not
    end. *)
Lemma partition_without_main_op_has_no_entry_witness :
  partition_data_displacer_t_ctor
    {| ops_ := [Examples.op 70 "TypeCast" [Examples.lt 0 "f32"]
                  [Examples.lt 0 "f32"]] |} [70%nat]
  = Value {| dg_ := Some {| ops_ := [Examples.op 70 "TypeCast"
                                       [Examples.lt 0 "f32"]
                                       [Examples.lt 0 "f32"]] |};
             op_ids_set_ := list_to_set [70%nat];
             quantize_displace_ := ∅ |}.
Proof.
  apply (partition_without_main_op_has_no_entry
           {| ops_ := [Examples.op 70 "TypeCast" [Examples.lt 0 "f32"]
                         [Examples.lt 0 "f32"]] |} [70%nat]).
  intros op Hop _. apply list_elem_of_singleton in Hop as ->.
  apply (bool_decide_eq_false_1 ("TypeCast" ∈ main_op_kind)). by vm_compute.
Defined.

(** * Further properties of the displacement *)

Section filling_facts.
Context `{backend : ref_backend}.

Lemma quantize_filling_op_inv main_op dt op :
  quantize_filling_op main_op dt = Value op ->
  exists in0 out0 in_lts out0',
    OP.in_lts_ main_op !! 0%nat = Some in0
    /\ OP.out_lts_ main_op !! 0%nat = Some out0
    /\ in_lts
       = match <[0%nat := set_data_type dt in0]> (OP.in_lts_ main_op) !! 1%nat
         with
         | Some in1 =>
             <[1%nat := set_data_type
                          (if is_conv_like (OP.kind_ main_op)
                              && String.eqb dt "u8" then "s8" else dt) in1]>
               (<[0%nat := set_data_type dt in0]> (OP.in_lts_ main_op))
         | None => <[0%nat := set_data_type dt in0]> (OP.in_lts_ main_op)
         end
    /\ out0'
       = match opkind2driver (opstr2kind (OP.kind_ main_op)) with
         | pool | binary => set_data_type dt out0
         | _ => if negb (String.eqb (LT.data_type_ out0) "bf16")
                then set_data_type "f32" out0 else out0
         end
    /\ op = OP.mk (OP.id_ main_op) (OP.name_ main_op) (OP.kind_ main_op)
              (OP.attrs_ main_op) in_lts
              (<[0%nat := out0']> (OP.out_lts_ main_op)).
Proof.
  unfold quantize_filling_op. intros H.
  destruct (OP.in_lts_ main_op !! 0%nat) as [in0|]; [|done].
  destruct (OP.out_lts_ main_op !! 0%nat) as [out0|]; [|done].
  injection H as <-. by eexists _, _, _, _.
Qed.

Lemma set_data_type_id dt lt : LT.id_ (set_data_type dt lt) = LT.id_ lt.
Proof. done. Qed.

Lemma set_data_type_shape dt lt :
  LT.shape_ (set_data_type dt lt) = LT.shape_ lt.
Proof. done. Qed.

(** Replacing a tensor by one with another data type keeps what a function
    that does not look at the data type sees. *)
Lemma fmap_insert_set_data_type {B} (f : deserialized_lt -> B)
    (l : list deserialized_lt) (j : nat) lt dt :
  (forall dt lt, f (set_data_type dt lt) = f lt) ->
  l !! j = Some lt ->
  f <$> <[j := set_data_type dt lt]> l = f <$> l.
Proof.
  intros Hf Hj. rewrite list_fmap_insert, Hf.
  apply list_insert_id. by rewrite list_lookup_fmap, Hj.
Qed.

Lemma quantize_filling_op_keeps {B} (f : deserialized_lt -> B) main_op dt op :
  (forall dt lt, f (set_data_type dt lt) = f lt) ->
  quantize_filling_op main_op dt = Value op ->
  f <$> OP.in_lts_ op = f <$> OP.in_lts_ main_op
  /\ f <$> OP.out_lts_ op = f <$> OP.out_lts_ main_op.
Proof.
  intros Hf Hop.
  apply quantize_filling_op_inv in Hop
    as (in0 & out0 & in_lts & out0' & Hin0 & Hout0 & -> & -> & ->).
  simpl. split.
  - assert (f <$> <[0%nat := set_data_type dt in0]> (OP.in_lts_ main_op)
            = f <$> OP.in_lts_ main_op) as H0
      by by apply fmap_insert_set_data_type.
    destruct (<[0%nat := set_data_type dt in0]> (OP.in_lts_ main_op) !! 1%nat)
      as [in1|] eqn:H1; [|done].
    by rewrite (fmap_insert_set_data_type f _ 1 in1 _ Hf H1).
  - destruct (opkind2driver (opstr2kind (OP.kind_ main_op)));
      try (destruct (negb (String.eqb (LT.data_type_ out0) "bf16")));
      try (by apply fmap_insert_set_data_type);
      rewrite list_insert_id; done.
Qed.
End filling_facts.

(** X6. The op that [gen_quantize_filling] hands to the reference primitive
    differs from the main op in data types only: id, name, kind and
    attributes are those of the main op, and its inputs and outputs have the
    ids and the shapes of the inputs and outputs of the main op, in the same
    number and order. *)
Theorem quantize_filling_changes_data_types_only `{backend : ref_backend}
    (main_op : deserialized_op) (dt : string) (op : deserialized_op) :
  quantize_filling_op main_op dt = Value op ->
  OP.id_ op = OP.id_ main_op /\ OP.name_ op = OP.name_ main_op
  /\ OP.kind_ op = OP.kind_ main_op /\ OP.attrs_ op = OP.attrs_ main_op
  /\ LT.id_ <$> OP.in_lts_ op = LT.id_ <$> OP.in_lts_ main_op
  /\ LT.shape_ <$> OP.in_lts_ op = LT.shape_ <$> OP.in_lts_ main_op
  /\ LT.id_ <$> OP.out_lts_ op = LT.id_ <$> OP.out_lts_ main_op
  /\ LT.shape_ <$> OP.out_lts_ op = LT.shape_ <$> OP.out_lts_ main_op.
Proof.
  intros Hop.
  destruct (quantize_filling_op_keeps LT.id_ _ _ _ set_data_type_id Hop)
    as [Hi Ho].
  destruct (quantize_filling_op_keeps LT.shape_ _ _ _ set_data_type_shape Hop)
    as [Hsi Hso].
  apply quantize_filling_op_inv in Hop
    as (in0 & out0 & in_lts & out0' & _ & _ & _ & _ & ->).
  done.
Qed.

Lemma quantize_filling_changes_data_types_only_witness :
  OP.id_ filling_of_inner_matmul = OP.id_ Examples.inner_matmul
  /\ OP.name_ filling_of_inner_matmul = OP.name_ Examples.inner_matmul
  /\ OP.kind_ filling_of_inner_matmul = OP.kind_ Examples.inner_matmul
  /\ OP.attrs_ filling_of_inner_matmul = OP.attrs_ Examples.inner_matmul
  /\ LT.id_ <$> OP.in_lts_ filling_of_inner_matmul
     = LT.id_ <$> OP.in_lts_ Examples.inner_matmul
  /\ LT.shape_ <$> OP.in_lts_ filling_of_inner_matmul
     = LT.shape_ <$> OP.in_lts_ Examples.inner_matmul
  /\ LT.id_ <$> OP.out_lts_ filling_of_inner_matmul
     = LT.id_ <$> OP.out_lts_ Examples.inner_matmul
  /\ LT.shape_ <$> OP.out_lts_ filling_of_inner_matmul
     = LT.shape_ <$> OP.out_lts_ Examples.inner_matmul.
Proof.
  apply (quantize_filling_changes_data_types_only
           (backend := Examples.logging_backend INITIALIZED OK)
           Examples.inner_matmul "u8").
  by vm_compute.
Defined.

(** X7. The data types of that op: the first input has the data type of the
    boundary tensor; a MatMul, Convolution or ConvTranspose never gets "u8"
    for both of its first two inputs (the second is "s8" then), any other op
    gets the data type of the boundary tensor for its second input too; the
    first output has that data type under the pool and binary drivers, and
    is "f32" or "bf16" under the others. *)
Theorem quantize_filling_data_types `{backend : ref_backend}
    (main_op : deserialized_op) (dt : string) (op : deserialized_op) :
  quantize_filling_op main_op dt = Value op ->
  LT.data_type_ <$> OP.in_lts_ op !! 0%nat = Some dt
  /\ (forall in1, OP.in_lts_ op !! 1%nat = Some in1 ->
        if is_conv_like (OP.kind_ main_op)
        then LT.data_type_ in1 = (if String.eqb dt "u8" then "s8" else dt)
             /\ ~ (dt = "u8" /\ LT.data_type_ in1 = "u8")
        else LT.data_type_ in1 = dt)
  /\ exists out0, OP.out_lts_ op !! 0%nat = Some out0
       /\ match opkind2driver (opstr2kind (OP.kind_ main_op)) with
          | pool | binary => LT.data_type_ out0 = dt
          | _ => LT.data_type_ out0 = "f32" \/ LT.data_type_ out0 = "bf16"
          end.
Proof.
  intros Hop.
  apply quantize_filling_op_inv in Hop
    as (in0 & out0 & in_lts & out0' & Hin0 & Hout0 & -> & -> & ->).
  simpl.
  pose proof (lookup_lt_Some _ _ _ Hin0) as Hlen0.
  pose proof (lookup_lt_Some _ _ _ Hout0) as Hleno.
  split; [|split].
  - destruct (<[0%nat := set_data_type dt in0]> (OP.in_lts_ main_op) !! 1%nat)
      eqn:H1.
    + rewrite list_lookup_insert_ne by done.
      by rewrite list_lookup_insert_eq.
    + by rewrite list_lookup_insert_eq.
  - intros in1.
    destruct (<[0%nat := set_data_type dt in0]> (OP.in_lts_ main_op) !! 1%nat)
      as [in1'|] eqn:H1; [|congruence].
    rewrite list_lookup_insert_eq
      by (apply lookup_lt_Some in H1; by rewrite length_insert in *).
    intros [= <-]. simpl.
    destruct (is_conv_like (OP.kind_ main_op)); simpl; [|done].
    split; [done|]. intros [-> Hu]. by vm_compute in Hu.
  - eexists. split; [by apply list_lookup_insert_eq|].
    destruct (opkind2driver (opstr2kind (OP.kind_ main_op))); try done;
      destruct (String.eqb_spec (LT.data_type_ out0) "bf16"); simpl; auto.
Qed.

Lemma quantize_filling_data_types_witness :
  LT.data_type_ <$> OP.in_lts_ filling_of_inner_matmul !! 0%nat = Some "u8"
  /\ (forall in1, OP.in_lts_ filling_of_inner_matmul !! 1%nat = Some in1 ->
        if is_conv_like (OP.kind_ Examples.inner_matmul)
        then LT.data_type_ in1 = (if String.eqb "u8" "u8" then "s8" else "u8")
             /\ ~ ("u8" = "u8" /\ LT.data_type_ in1 = "u8")
        else LT.data_type_ in1 = "u8")
  /\ exists out0, OP.out_lts_ filling_of_inner_matmul !! 0%nat = Some out0
       /\ match opkind2driver (ref_backend :=
                    Examples.logging_backend INITIALIZED OK)
                  (opstr2kind (OP.kind_ Examples.inner_matmul)) with
          | pool | binary => LT.data_type_ out0 = "u8"
          | _ => LT.data_type_ out0 = "f32" \/ LT.data_type_ out0 = "bf16"
          end.
Proof.
  apply (quantize_filling_data_types
           (backend := Examples.logging_backend INITIALIZED OK)
           Examples.inner_matmul "u8").
  by vm_compute.
Defined.

(** X8. How [gen_quantize_filling] returns: with [FAIL], the memory of the
    caller untouched, exactly when the state after [init_prb] is
    [INVALID_ARGUMENTS]; or with [OK] and the memory untouched when the
    primitive is skipped or unimplemented; or with [OK] and the memory of
    argument [arg] of the reference primitive.  No other status is
    returned. *)
Theorem gen_quantize_filling_outcomes `{backend : ref_backend}
    (main_op : deserialized_op) (arg : Z) (mem : mem_t) (dt : string)
    (res : res_t) (status : Z) (mem' : mem_t) (res' : res_t) :
  gen_quantize_filling main_op arg mem dt res = Value (status, mem', res') ->
  exists op, quantize_filling_op main_op dt = Value op
    /\ ((status = FAIL /\ mem' = mem /\ res' = init_prb op res
         /\ state res' = INVALID_ARGUMENTS)
        \/ (status = OK /\ mem' = mem
            /\ state (init_prb op res) <> INVALID_ARGUMENTS
            /\ skipped_or_unimplemented res' = true)
        \/ (status = OK /\ mem' = get_arg op arg
            /\ state (init_prb op res) <> INVALID_ARGUMENTS
            /\ skipped_or_unimplemented res' = false)).
Proof.
  unfold gen_quantize_filling. intros H.
  destruct (quantize_filling_op main_op dt) as [op| | | |]; try done.
  exists op. split; [done|]. simpl in H.
  destruct (bool_decide (state (init_prb op res) = INVALID_ARGUMENTS))
    eqn:Hinv.
  { apply bool_decide_eq_true_1 in Hinv. left. by simplify_eq. }
  apply bool_decide_eq_false_1 in Hinv. right.
  destruct (init_prim op (init_prb op res)) as [s1 r1].
  unfold SAFE_V in H. simpl in H.
  destruct (bool_decide (s1 = OK)); [|done]. simpl in H.
  destruct (skipped_or_unimplemented r1) eqn:Hs1.
  { left. by simplify_eq. }
  destruct (init_ref_memory_args op r1) as [s2 r2]. simpl in H.
  destruct (bool_decide (s2 = OK)); [|done]. simpl in H.
  destruct (skipped_or_unimplemented r2) eqn:Hs2.
  - left. by simplify_eq.
  - right. by simplify_eq.
Qed.

Lemma gen_quantize_filling_outcomes_witness :
  exists op,
    quantize_filling_op (backend := Examples.logging_backend INITIALIZED OK)
      Examples.inner_matmul "u8" = Value op
    /\ ((OK = FAIL
         /\ {| md_ := "md of MatMul"; data_ := ["fill MatMul"] |}
            = Examples.target
         /\ {| state := INITIALIZED |}
            = init_prb (ref_backend := Examples.logging_backend INITIALIZED OK)
                op {| state := UNTESTED |}
         /\ state {| state := INITIALIZED |} = INVALID_ARGUMENTS)
        \/ (OK = OK
            /\ {| md_ := "md of MatMul"; data_ := ["fill MatMul"] |}
               = Examples.target
            /\ state (init_prb
                        (ref_backend :=
                           Examples.logging_backend INITIALIZED OK)
                        op {| state := UNTESTED |}) <> INVALID_ARGUMENTS
            /\ skipped_or_unimplemented {| state := INITIALIZED |} = true)
        \/ (OK = OK
            /\ {| md_ := "md of MatMul"; data_ := ["fill MatMul"] |}
               = get_arg (ref_backend :=
                            Examples.logging_backend INITIALIZED OK) op 0
            /\ state (init_prb
                        (ref_backend :=
                           Examples.logging_backend INITIALIZED OK)
                        op {| state := UNTESTED |}) <> INVALID_ARGUMENTS
            /\ skipped_or_unimplemented {| state := INITIALIZED |} = false)).
Proof.
  apply (gen_quantize_filling_outcomes
           (backend := Examples.logging_backend INITIALIZED OK)
           Examples.inner_matmul 0 Examples.target "u8"
           {| state := UNTESTED |}).
  by vm_compute.
Defined.

(** X9. Whatever the state of the displacer, when [displace_input_data]
    returns, the buffer of the caller either is what it was, or is what the
    final [mem.reorder] made of it, from a source memory that carries the
    descriptor of the buffer; in the latter case the status returned is the
    status of the reorder. *)
Theorem displace_writes_only_through_reorder `{backend : ref_backend}
    (NDEBUG : bool) (d : partition_data_displacer_t) (lt_id : nat)
    (mem : mem_t) (res : res_t) (status : Z) (mem' : mem_t) (res' : res_t) :
  displace_input_data NDEBUG d lt_id mem res = Value (status, mem', res') ->
  mem' = mem
  \/ exists src, md_ src = md_ mem /\ reorder mem src = (status, mem').
Proof.
  unfold displace_input_data. intros H.
  destruct (dg_ d) as [dg|]; [|left; by simplify_eq].
  destruct (quantize_displace_ d !! lt_id) as [[[main_op off] tensor]|];
    [|left; by simplify_eq].
  destruct (gen_quantize_filling _ _ _ _ _) as [[[st mr] r]| | | |];
    try done.
  simpl in H.
  destruct (negb (bool_decide (st = OK))); [left; by simplify_eq|].
  destruct (skipped_or_unimplemented r); [left; by simplify_eq|].
  destruct (reverse_job _ _ _ _ _ _) as [[st'|mr']| | | |]; try done;
    simpl in H; [left; by simplify_eq|].
  right. exists {| md_ := md_ mem; data_ := data_ mr' |}. split; [done|].
  destruct (reorder mem _) as [s m] eqn:Hr.
  destruct (bool_decide (s = OK)) eqn:Hs; simpl in H; [|by simplify_eq].
  apply bool_decide_eq_true_1 in Hs. by simplify_eq.
Qed.

Lemma displace_writes_only_through_reorder_witness :
  {| md_ := "target"; data_ := ["reorder"; "fill MatMul"] |} = Examples.target
  \/ exists src,
       md_ src = md_ Examples.target
       /\ reorder (ref_backend := Examples.logging_backend INITIALIZED OK)
            Examples.target src
          = (OK, {| md_ := "target"; data_ := ["reorder"; "fill MatMul"] |}).
Proof.
  apply (displace_writes_only_through_reorder
           (backend := Examples.logging_backend INITIALIZED OK) false
           Examples.two_dq_displacer 0 Examples.target {| state := UNTESTED |}
           OK {| md_ := "target"; data_ := ["reorder"; "fill MatMul"] |}
           {| state := INITIALIZED |}).
  by vm_compute.
Defined.

(** ** Reversing an op *)

Lemma opstr2kind_cases (k : string) :
  (k = "Quantize" /\ opstr2kind k = kind.Quantize)
  \/ (k = "Dequantize" /\ opstr2kind k = kind.Dequantize)
  \/ (k = "StaticTranspose" /\ opstr2kind k = kind.StaticTranspose)
  \/ (k = "TypeCast" /\ opstr2kind k = kind.TypeCast)
  \/ (k = "StaticReshape" /\ opstr2kind k = kind.StaticReshape)
  \/ ((k ∉ go_through_op_kind) /\ opstr2kind k = kind.Other k).
Proof.
  destruct (decide (k ∈ go_through_op_kind)) as [Hin|Hout].
  - unfold go_through_op_kind in Hin. apply elem_of_list_to_set in Hin.
    repeat (apply elem_of_cons in Hin as [->|Hin]; [by auto 10|]).
    by apply elem_of_nil in Hin.
  - do 5 right. split; [done|]. by apply opstr2kind_other.
Qed.

(** X10. The reverse job can reverse exactly the ops the scan goes through:
    the [switch] of [displace_input_data] falls to its [default] label if and
    only if the kind of the op is not in [go_through_op_kind]. *)
Theorem reverse_op_supports_go_through_kinds (op : deserialized_op) :
  reverse_op op = None <-> OP.kind_ op ∉ go_through_op_kind.
Proof.
  unfold reverse_op.
  destruct (opstr2kind_cases (OP.kind_ op))
    as [[Hk ->]|[[Hk ->]|[[Hk ->]|[[Hk ->]|[[Hk ->]|[Hk ->]]]]]];
    try done;
    (split; [done|]); intros Hout; exfalso; apply Hout; rewrite Hk;
    apply (bool_decide_eq_true_1 (_ ∈ go_through_op_kind)); by vm_compute.
Qed.

Lemma reverse_op_lts op op' :
  reverse_op op = Some op' ->
  OP.in_lts_ op' = OP.in_lts_ op /\ OP.out_lts_ op' = OP.out_lts_ op
  /\ OP.id_ op' = OP.id_ op /\ OP.name_ op' = OP.name_ op.
Proof.
  unfold reverse_op. intros H.
  destruct (opstr2kind (OP.kind_ op)); simplify_eq; done.
Qed.

(** X11. Reversing is its own inverse: reversing the reverse of an op (with
    the tensors swapped each time, as the reverse job does) gives the op
    back, provided that, for a StaticTranspose, the op has an [order] that is
    a permutation of [0, ..., n-1]. *)
Theorem reverse_op_round_trip (op op' : deserialized_op) :
  reverse_op (swap_lts op) = Some op' ->
  (OP.kind_ op = "StaticTranspose" ->
   is_Some (OP.attrs_ op !! "order")
   /\ valid_order (get_attr_s64_vector op "order")
   /\ (Z.of_nat (length (get_attr_s64_vector op "order")) < 2 ^ 63)%Z) ->
  reverse_op (swap_lts op') = Some op.
Proof.
  intros Hrev Htr. unfold reverse_op in Hrev. simpl in Hrev.
  destruct op as [id name k attrs ins outs]. simpl in *.
  destruct (opstr2kind_cases k)
    as [[-> Hk]|[[-> Hk]|[[-> Hk]|[[-> Hk]|[[-> Hk]|[Hout Hk]]]]]];
    rewrite Hk in Hrev; simplify_eq; try done.
  destruct (Htr eq_refl) as ([a Ha] & Hvalid & Hsize).
  unfold get_attr_s64_vector in Hvalid, Hsize. simpl in Hvalid, Hsize.
  rewrite Ha in Hvalid, Hsize.
  unfold reverse_op, swap_lts, set_attr_s64_vector, get_attr_s64_vector.
  simpl. rewrite Ha. simpl. rewrite !lookup_insert_eq. simpl.
  rewrite insert_insert_eq, invert_order_involutive by done.
  f_equal. f_equal. destruct a as [ty v]. simpl. by apply insert_id.
Qed.

Lemma reverse_op_round_trip_witness :
  reverse_op
    (swap_lts
       (OP.mk 10 "transpose" "StaticTranspose"
          {[ "order" := {| type_ := "s64[]"; s64_vector_ := [1; 0; 2]%Z |} ]}
          [Examples.lt 1 "u8"] [Examples.lt 0 "u8"]))
  = Some Examples.transpose_op.
Proof.
  apply (reverse_op_round_trip Examples.transpose_op).
  - by vm_compute.
  - intros _. split; [by eexists|].
    assert (get_attr_s64_vector Examples.transpose_op "order" = [1; 0; 2]%Z)
      as -> by by vm_compute.
    split.
    + unfold valid_order. simpl. change (seqZ 0 3) with [0; 1; 2]%Z.
      apply Permutation_swap.
    + simpl. lia.
Defined.

(** ** More on the inversion of an order *)

Section invert_order_more.
Local Open Scope Z_scope.

Lemma fill_new_order_Forall (ndims i : nat) order new_order :
  (i + length order <= ndims)%nat ->
  Forall (fun x => 0 <= x < Z.of_nat ndims) new_order ->
  Forall (fun x => 0 <= x < Z.of_nat ndims)
    (fill_new_order ndims i order new_order).
Proof.
  revert i new_order. induction order as [|o rest IH]; intros i acc Hi Hacc;
    [done|].
  simpl in *. apply IH; [lia|]. apply Forall_insert; [done|lia].
Qed.

Lemma fill_new_order_ext (ndims i : nat) order1 order2 new_order :
  new_order_index ndims <$> order1 = new_order_index ndims <$> order2 ->
  fill_new_order ndims i order1 new_order
  = fill_new_order ndims i order2 new_order.
Proof.
  revert i order2 new_order.
  induction order1 as [|o1 rest1 IH]; intros i [|o2 rest2] acc H; try done.
  rewrite !fmap_cons in H. injection H as Ho Hrest.
  simpl. rewrite Ho. by apply IH.
Qed.

Lemma new_order_index_negative (ndims : nat) (o : Z) :
  Z.of_nat ndims < 2 ^ 63 -> - Z.of_nat ndims <= o < 0 ->
  new_order_index ndims o = Z.to_nat (o + Z.of_nat ndims).
Proof.
  intros Hn Ho. unfold new_order_index, size_t_wrap.
  rewrite (Z.mod_small (o + Z.of_nat ndims) (2 ^ 64)) by lia.
  by rewrite Z.mod_small by lia.
Qed.

Lemma normalised_order_valid order :
  NoDup (new_order_index (length order) <$> order) ->
  valid_order ((fun o => Z.of_nat (new_order_index (length order) o))
                 <$> order).
Proof.
  intros Hnd. unfold valid_order. rewrite length_fmap.
  apply NoDup_Permutation_bis.
  - apply NoDup_ListNoDup.
    rewrite (list_fmap_compose (new_order_index (length order)) Z.of_nat).
    by apply (NoDup_fmap_2 Z.of_nat).
  - rewrite length_seqZ, length_fmap. lia.
  - intros x Hx. apply list_elem_of_In in Hx. apply list_elem_of_In.
    apply list_elem_of_fmap in Hx as (o & -> & Ho).
    apply elem_of_seqZ.
    assert (length order <> 0)%nat as Hne
      by (intros Hz; destruct order; [by apply elem_of_nil in Ho | done]).
    pose proof (new_order_index_lt (length order) o Hne). lia.
Qed.
End invert_order_more.

(** X12. For every order, valid or not, the inversion loop stays within its
    vectors: each index it writes [new_order] at is below [ndims], and the
    result has [ndims] entries, all of them in [0, ndims). *)
Theorem invert_order_in_bounds (order : list Z) :
  Forall (fun o => (new_order_index (length order) o < length order)%nat)
    order
  /\ length (invert_order order) = length order
  /\ Forall (fun x => (0 <= x < Z.of_nat (length order))%Z)
       (invert_order order).
Proof.
  split; [|split].
  - apply Forall_forall. intros o Ho. apply new_order_index_lt.
    intros Hz. destruct order; [by apply elem_of_nil in Ho | done].
  - apply invert_order_length.
  - unfold invert_order. apply fill_new_order_Forall; [simpl; lia|].
    apply Forall_forall. intros x Hx.
    apply elem_of_replicate in Hx as [-> Hn]. lia.
Qed.

(** X13. Negative entries of an order count from the end: an entry [o] with
    [-n <= o < 0] is written at position [o + n].  When the entries of an
    order fall on pairwise different positions, inverting twice gives the
    order with every entry replaced by its position. *)
Theorem invert_order_twice_normalises (order : list Z) :
  NoDup (new_order_index (length order) <$> order) ->
  (Z.of_nat (length order) < 2 ^ 63)%Z ->
  invert_order (invert_order order)
  = (fun o => Z.of_nat (new_order_index (length order) o)) <$> order
  /\ forall o, (- Z.of_nat (length order) <= o < 0)%Z ->
       new_order_index (length order) o
       = Z.to_nat (o + Z.of_nat (length order)).
Proof.
  intros Hnd Hsize. split; [|intros o Ho; by apply new_order_index_negative].
  pose proof (normalised_order_valid order Hnd) as Hvalid.
  set (norm := (fun o => Z.of_nat (new_order_index (length order) o))
                 <$> order) in *.
  assert (length norm = length order) as Hlen by apply length_fmap.
  assert (invert_order order = invert_order norm) as ->.
  { unfold invert_order. rewrite Hlen. apply fill_new_order_ext.
    unfold norm. rewrite <- list_fmap_compose. apply list_fmap_ext.
    intros j o Ho. simpl.
    rewrite (new_order_index_id _ (Z.of_nat _)); [by rewrite Nat2Z.id|done|].
    assert (length order <> 0)%nat as Hne
      by (apply lookup_lt_Some in Ho; lia).
    pose proof (new_order_index_lt (length order) o Hne). lia. }
  apply invert_order_involutive; [done|]. by rewrite Hlen.
Qed.

Lemma invert_order_twice_normalises_witness :
  invert_order (invert_order [-1; 0; 1]%Z)
  = (fun o => Z.of_nat (new_order_index 3 o)) <$> [-1; 0; 1]%Z
  /\ forall o, (- Z.of_nat 3 <= o < 0)%Z ->
       new_order_index 3 o = Z.to_nat (o + Z.of_nat 3).
Proof.
  apply (invert_order_twice_normalises [-1; 0; 1]%Z).
  - apply (bool_decide_eq_true_1 (NoDup _)). by vm_compute.
  - simpl. lia.
Defined.

(** ** The reverse job ends *)

Section reverse_job_ends.
Context `{backend : ref_backend}.
Variable NDEBUG : bool.
Variable dg : deserialized_graph.
Variable op_ids : gset nat.
Hypothesis Hchrono : chronological dg.

Lemma reverse_job_no_producer fuel tensor mem_replace :
  get_op_by_out_lt dg (LT.id_ tensor) = None ->
  reverse_job NDEBUG fuel dg op_ids tensor mem_replace
  = Value (inr mem_replace).
Proof. intros H. destruct fuel; simpl; by rewrite H. Qed.

Lemma reverse_job_ends_at (j : nat) :
  forall fuel tensor p mem_replace,
    ops_ dg !! j = Some p ->
    get_op_by_out_lt dg (LT.id_ tensor) = Some p ->
    (j < fuel)%nat ->
    reverse_job NDEBUG fuel dg op_ids tensor mem_replace <> OutOfFuel.
Proof.
  induction (lt_wf j) as [j _ IH]. intros fuel tensor p mr Hj Hp Hfuel.
  destruct fuel as [|fuel]; [lia|]. simpl. rewrite Hp.
  destruct (bool_decide (OP.id_ p ∉ op_ids)); [done|].
  destruct (reverse_op (swap_lts p)) as [op|] eqn:Hop;
    [|by destruct NDEBUG].
  apply reverse_op_lts in Hop as (_ & Hout & _). simpl in Hout.
  destruct (init_prim op _) as [s1 r1]. unfold SAFE_V. simpl.
  destruct (bool_decide (s1 = OK)); [|done]. simpl.
  destruct (init_ref_memory_args op r1) as [s2 r2]. simpl.
  destruct (bool_decide (s2 = OK)); [|done]. simpl.
  destruct (execute_prim op _ r2) as [[s3 r3] dst]. simpl.
  destruct (bool_decide (s3 = OK)); [|done]. simpl.
  rewrite Hout.
  destruct (OP.in_lts_ p !! 0%nat) as [tensor'|] eqn:Hin; [|done].
  destruct (get_op_by_out_lt dg (LT.id_ tensor')) as [q|] eqn:Hq.
  - destruct (Hchrono j p tensor' q Hj) as (j' & Hlt & Hj'); [|done|].
    { by eapply list_elem_of_lookup_2. }
    apply (IH j' Hlt fuel tensor' q dst Hj' Hq). lia.
  - by rewrite reverse_job_no_producer.
Qed.

Lemma reverse_job_ends tensor mem_replace :
  reverse_job NDEBUG (length (ops_ dg)) dg op_ids tensor mem_replace
  <> OutOfFuel.
Proof.
  destruct (get_op_by_out_lt dg (LT.id_ tensor)) as [p|] eqn:Hp.
  - pose proof (get_op_by_out_lt_elem _ _ _ Hp) as Hin.
    apply list_elem_of_lookup_1 in Hin as [j Hj].
    eapply reverse_job_ends_at; [done|done|]. by eapply lookup_lt_Some.
  - by rewrite reverse_job_no_producer.
Qed.
End reverse_job_ends.

Lemma gen_quantize_filling_ends `{backend : ref_backend} main_op arg mem dt
    res :
  gen_quantize_filling main_op arg mem dt res <> OutOfFuel
  /\ gen_quantize_filling main_op arg mem dt res <> Aborted
  /\ (gen_quantize_filling main_op arg mem dt res = UndefinedBehaviour ->
      OP.in_lts_ main_op = [] \/ OP.out_lts_ main_op = []).
Proof.
  unfold gen_quantize_filling, quantize_filling_op.
  destruct (OP.in_lts_ main_op) as [|in0 ins]; [simpl; auto|].
  destruct (OP.out_lts_ main_op) as [|out0 outs]; [simpl; auto|].
  simpl.
  destruct (bool_decide (state (init_prb _ res) = INVALID_ARGUMENTS));
    [done|].
  destruct (init_prim _ _) as [s1 r1]. unfold SAFE_V. simpl.
  destruct (bool_decide (s1 = OK)); [|done]. simpl.
  destruct (skipped_or_unimplemented r1); [done|].
  destruct (init_ref_memory_args _ r1) as [s2 r2]. simpl.
  destruct (bool_decide (s2 = OK)); [|done]. simpl.
  by destruct (skipped_or_unimplemented r2).
Qed.

(** X14. On a graph sorted in chronological order the [while] loop of
    [displace_input_data] ends: its body is run at most once per op of the
    graph, whatever the state of the displacer and whatever the reference
    primitives return, so the displacement never goes on for ever. *)
Theorem displacement_ends_on_sorted_graph `{backend : ref_backend}
    (NDEBUG : bool) (d : partition_data_displacer_t)
    (dg : deserialized_graph) (lt_id : nat) (mem : mem_t) (res : res_t) :
  dg_ d = Some dg -> chronological dg ->
  (forall tensor mem_replace,
     reverse_job NDEBUG (length (ops_ dg)) dg (op_ids_set_ d) tensor
       mem_replace <> OutOfFuel)
  /\ displace_input_data NDEBUG d lt_id mem res <> OutOfFuel.
Proof.
  intros Hdg Hc. split; [intros; by apply reverse_job_ends|].
  unfold displace_input_data. rewrite Hdg.
  destruct (quantize_displace_ d !! lt_id) as [[[main_op off] tensor]|];
    [|done].
  destruct (gen_quantize_filling_ends main_op
              (get_prim_arg_name_from_graph_op_input_offset
                 (opstr2kind (OP.kind_ main_op)) off)
              empty_mem (LT.data_type_ tensor) res) as (Hfuel & _).
  destruct (gen_quantize_filling _ _ _ _ _) as [[[st mr] r]| | | |];
    try done.
  simpl. destruct (negb (bool_decide (st = OK))); [done|].
  destruct (skipped_or_unimplemented r); [done|].
  pose proof (reverse_job_ends NDEBUG dg (op_ids_set_ d) Hc tensor mr) as Hj.
  destruct (reverse_job _ _ _ _ _ _) as [[st'|mr']| | | |]; try done.
  simpl. destruct (reorder mem _) as [s m].
  by destruct (negb (bool_decide (s = OK))).
Qed.

Lemma relu_graph_chronological : chronological Examples.relu_graph.
Proof.
  intros j op lt p Hj Hlt Hp.
  destruct j as [|[|j]]; simpl in Hj; [| |done];
    injection Hj as <-; apply list_elem_of_In in Hlt; simpl in Hlt;
    repeat (destruct Hlt as [<-|Hlt]; [vm_compute in Hp|]); try done;
    injection Hp as <-.
  exists 0%nat. split; [lia | done].
Qed.

Lemma displacement_ends_on_sorted_graph_witness :
  (forall tensor mem_replace,
     reverse_job (backend := Examples.logging_backend INITIALIZED OK) true
       (length (ops_ Examples.relu_graph)) Examples.relu_graph
       (op_ids_set_ Examples.relu_displacer) tensor mem_replace
     <> OutOfFuel)
  /\ displace_input_data (backend := Examples.logging_backend INITIALIZED OK)
       true Examples.relu_displacer 1 Examples.target {| state := UNTESTED |}
     <> OutOfFuel.
Proof.
  apply (displacement_ends_on_sorted_graph
           (backend := Examples.logging_backend INITIALIZED OK) true
           Examples.relu_displacer Examples.relu_graph 1 Examples.target
           {| state := UNTESTED |}).
  - reflexivity.
  - apply relu_graph_chronological.
Defined.

(** X15. On a displacer built by the constructor, [displace_input_data]
    neither fails an assertion nor runs out of iterations, and its only
    undefined behaviour is the quantize filling of a recorded main op that
    has no output. *)
Theorem displace_of_constructed_is_safe `{backend : ref_backend}
    (NDEBUG : bool) (dg : deserialized_graph) (par_ops : list nat)
    (d : partition_data_displacer_t) (lt_id : nat) (mem : mem_t)
    (res : res_t) :
  partition_data_displacer_t_ctor dg par_ops = Value d ->
  displace_input_data NDEBUG d lt_id mem res <> Aborted
  /\ displace_input_data NDEBUG d lt_id mem res <> OutOfFuel
  /\ (displace_input_data NDEBUG d lt_id mem res = UndefinedBehaviour ->
      exists main_op off tensor,
        quantize_displace_ d !! lt_id = Some (main_op, off, tensor)
        /\ OP.out_lts_ main_op = []).
Proof.
  intros Hctor.
  destruct (quantize_displace_ d !! lt_id) as [[[main_op off] tensor]|] eqn:Hk.
  - rewrite (displace_of_recorded NDEBUG _ _ _ _ _ _ _ mem res Hctor Hk).
    destruct (ctor_entry _ _ _ _ _ _ _ Hctor Hk)
      as (_ & _ & _ & _ & lt & Hlt & _).
    unfold fill_and_reorder.
    destruct (gen_quantize_filling_ends main_op
                (get_prim_arg_name_from_graph_op_input_offset
                   (opstr2kind (OP.kind_ main_op)) off)
                empty_mem (LT.data_type_ tensor) res) as (Hfuel & Habort & Hub).
    destruct (gen_quantize_filling _ _ _ _ _) as [[[st mr] r]| | | |];
      try done.
    + simpl. destruct (negb (bool_decide (st = OK))); [done|].
      destruct (skipped_or_unimplemented r); [done|].
      destruct (reorder mem _) as [s m].
      by destruct (negb (bool_decide (s = OK))).
    + split; [done|]. split; [done|]. intros _.
      exists main_op, off, tensor. split; [done|].
      destruct (Hub eq_refl) as [Hnil|Hnil]; [|done].
      rewrite Hnil in Hlt. by destruct off.
  - by rewrite (displace_of_absent NDEBUG _ _ _ _ mem res Hctor Hk).
Qed.

Lemma displace_of_constructed_is_safe_witness :
  displace_input_data (backend := Examples.logging_backend INITIALIZED OK)
    false Examples.two_dq_displacer 0 Examples.target {| state := UNTESTED |}
  <> Aborted
  /\ displace_input_data (backend := Examples.logging_backend INITIALIZED OK)
       false Examples.two_dq_displacer 0 Examples.target
       {| state := UNTESTED |}
     <> OutOfFuel
  /\ (displace_input_data (backend := Examples.logging_backend INITIALIZED OK)
        false Examples.two_dq_displacer 0 Examples.target
        {| state := UNTESTED |}
      = UndefinedBehaviour ->
      exists main_op off tensor,
        quantize_displace_ Examples.two_dq_displacer !! 0%nat
        = Some (main_op, off, tensor)
        /\ OP.out_lts_ main_op = []).
Proof.
  apply (displace_of_constructed_is_safe
           (backend := Examples.logging_backend INITIALIZED OK) false
           Examples.two_dq_graph [20; 21; 22; 23]%nat
           Examples.two_dq_displacer 0 Examples.target
           {| state := UNTESTED |}).
  by vm_compute.
Defined.

(** X16. What reversing changes in an op: the kind, from Quantize to
    Dequantize or back, or else the [order] attribute of a StaticTranspose;
    id, name, tensors, and every other attribute are kept. *)
Theorem reverse_op_changes_kind_or_order (op op' : deserialized_op) :
  reverse_op op = Some op' ->
  OP.id_ op' = OP.id_ op /\ OP.name_ op' = OP.name_ op
  /\ OP.in_lts_ op' = OP.in_lts_ op /\ OP.out_lts_ op' = OP.out_lts_ op
  /\ (forall name, name <> "order" ->
        OP.attrs_ op' !! name = OP.attrs_ op !! name)
  /\ ((OP.kind_ op = "Quantize" /\ OP.kind_ op' = "Dequantize"
       /\ OP.attrs_ op' = OP.attrs_ op)
      \/ (OP.kind_ op = "Dequantize" /\ OP.kind_ op' = "Quantize"
          /\ OP.attrs_ op' = OP.attrs_ op)
      \/ (OP.kind_ op = "StaticTranspose" /\ OP.kind_ op' = "StaticTranspose"
          /\ get_attr_s64_vector op' "order"
             = invert_order (get_attr_s64_vector op "order"))
      \/ ((OP.kind_ op = "TypeCast" \/ OP.kind_ op = "StaticReshape")
          /\ op' = op)).
Proof.
  intros Hrev. destruct (reverse_op_lts _ _ Hrev) as (Hin & Hout & Hid & Hname).
  repeat (split; [done|]).
  unfold reverse_op in Hrev.
  destruct (opstr2kind_cases (OP.kind_ op))
    as [[Hk Hs]|[[Hk Hs]|[[Hk Hs]|[[Hk Hs]|[[Hk Hs]|[Hk Hs]]]]]];
    rewrite Hs in Hrev; simplify_eq; simpl.
  - split; [done|]. by left.
  - split; [done|]. right. by left.
  - split.
    + intros name Hne. by rewrite lookup_insert_ne.
    + right. right. left. split; [done|]. split; [done|].
      unfold get_attr_s64_vector at 1. simpl. by rewrite lookup_insert_eq.
  - split; [done|]. do 3 right. split; [by left | done].
  - split; [done|]. do 3 right. split; [by right | done].
Qed.

Lemma reverse_op_changes_kind_or_order_witness :
  OP.id_ (set_kind Examples.dequantize_op "Quantize")
  = OP.id_ Examples.dequantize_op
  /\ OP.name_ (set_kind Examples.dequantize_op "Quantize")
     = OP.name_ Examples.dequantize_op
  /\ OP.in_lts_ (set_kind Examples.dequantize_op "Quantize")
     = OP.in_lts_ Examples.dequantize_op
  /\ OP.out_lts_ (set_kind Examples.dequantize_op "Quantize")
     = OP.out_lts_ Examples.dequantize_op
  /\ (forall name, name <> "order" ->
        OP.attrs_ (set_kind Examples.dequantize_op "Quantize") !! name
        = OP.attrs_ Examples.dequantize_op !! name)
  /\ ((OP.kind_ Examples.dequantize_op = "Quantize"
       /\ OP.kind_ (set_kind Examples.dequantize_op "Quantize") = "Dequantize"
       /\ OP.attrs_ (set_kind Examples.dequantize_op "Quantize")
          = OP.attrs_ Examples.dequantize_op)
      \/ (OP.kind_ Examples.dequantize_op = "Dequantize"
          /\ OP.kind_ (set_kind Examples.dequantize_op "Quantize") = "Quantize"
          /\ OP.attrs_ (set_kind Examples.dequantize_op "Quantize")
             = OP.attrs_ Examples.dequantize_op)
      \/ (OP.kind_ Examples.dequantize_op = "StaticTranspose"
          /\ OP.kind_ (set_kind Examples.dequantize_op "Quantize")
             = "StaticTranspose"
          /\ get_attr_s64_vector (set_kind Examples.dequantize_op "Quantize")
               "order"
             = invert_order
                 (get_attr_s64_vector Examples.dequantize_op "order"))
      \/ ((OP.kind_ Examples.dequantize_op = "TypeCast"
           \/ OP.kind_ Examples.dequantize_op = "StaticReshape")
          /\ set_kind Examples.dequantize_op "Quantize"
             = Examples.dequantize_op)).
Proof.
  apply (reverse_op_changes_kind_or_order Examples.dequantize_op).
  by vm_compute.
Defined.

(** ** The inversion rule of the transpose, negative entries included *)

Section axis_facts.
Local Open Scope Z_scope.

Lemma axis_range (ndims : nat) (o : Z) :
  ndims <> 0%nat -> 0 <= axis ndims o < Z.of_nat ndims.
Proof. intros Hn. unfold axis. apply Z.mod_pos_bound. lia. Qed.

Lemma axis_small (ndims : nat) (o : Z) :
  0 <= o < Z.of_nat ndims -> axis ndims o = o.
Proof.
  intros Ho. unfold axis.
  replace (o + Z.of_nat ndims) with (o + 1 * Z.of_nat ndims) by lia.
  rewrite Z.mod_add by lia. by apply Z.mod_small.
Qed.

(** In the range of a valid order the index the loop computes in [size_t]
    is the axis. *)
Lemma new_order_index_axis (ndims : nat) (o : Z) :
  Z.of_nat ndims < 2 ^ 63 ->
  - Z.of_nat ndims <= o < Z.of_nat ndims ->
  new_order_index ndims o = Z.to_nat (axis ndims o).
Proof.
  intros Hn Ho. unfold new_order_index, size_t_wrap, axis.
  by rewrite (Z.mod_small (o + Z.of_nat ndims) (2 ^ 64)) by lia.
Qed.

Section valid_permutation_facts.
Variable order : list Z.
Hypothesis Hvalid : valid_permutation order.
Hypothesis Hsize : Z.of_nat (length order) < 2 ^ 63.

Lemma valid_permutation_index o :
  o ∈ order ->
  new_order_index (length order) o = Z.to_nat (axis (length order) o).
Proof.
  intros Ho. apply new_order_index_axis; [done|].
  destruct Hvalid as [Hrange _].
  by apply (proj1 (Forall_forall _ _) Hrange).
Qed.

Lemma valid_permutation_axes : valid_order (axis (length order) <$> order).
Proof. unfold valid_order. rewrite length_fmap. by destruct Hvalid. Qed.

Lemma valid_permutation_invert :
  invert_order order = invert_order (axis (length order) <$> order).
Proof.
  unfold invert_order. rewrite length_fmap. apply fill_new_order_ext.
  rewrite <- list_fmap_compose. apply list_fmap_ext. intros j o Ho. simpl.
  assert (o ∈ order) as Hin by by eapply list_elem_of_lookup_2.
  rewrite valid_permutation_index by done.
  rewrite new_order_index_id; [done|done|].
  apply axis_range. apply lookup_lt_Some in Ho. lia.
Qed.

Lemma valid_permutation_NoDup :
  NoDup (new_order_index (length order) <$> order).
Proof.
  assert (new_order_index (length order) <$> order
          = Z.to_nat <$> (axis (length order) <$> order)) as ->.
  { rewrite <- list_fmap_compose. apply list_fmap_ext. intros j o Ho.
    apply valid_permutation_index. by eapply list_elem_of_lookup_2. }
  pose proof valid_permutation_axes as Hax.
  apply NoDup_fmap_2_strong; [|by apply valid_order_NoDup].
  intros a b Ha Hb Hab.
  apply (valid_order_range _ Hax) in Ha, Hb. lia.
Qed.

Lemma valid_permutation_twice :
  invert_order (invert_order order) = axis (length order) <$> order.
Proof.
  rewrite valid_permutation_invert.
  apply invert_order_involutive; [apply valid_permutation_axes|].
  by rewrite length_fmap.
Qed.
End valid_permutation_facts.

Lemma transpose_axes_valid_order {A} `{Inhabited A} order (s : list A) :
  valid_order order -> transpose_axes order s = transpose_by order s.
Proof.
  intros Hvalid. unfold transpose_axes, transpose_by.
  apply list_fmap_ext. intros j o Ho. simpl.
  rewrite axis_small; [done|].
  apply (valid_order_range _ Hvalid). by eapply list_elem_of_lookup_2.
Qed.

Lemma transpose_axes_normalised {A} `{Inhabited A} order (s : list A) :
  transpose_axes (axis (length order) <$> order) s = transpose_axes order s.
Proof.
  unfold transpose_axes. rewrite length_fmap, <- list_fmap_compose.
  apply list_fmap_ext. intros j o Ho. simpl.
  rewrite axis_small; [done|]. apply axis_range.
  apply lookup_lt_Some in Ho. lia.
Qed.
End axis_facts.

(** C5. For an order that is a permutation of the [n] axes, written with
    entries from [-n] to [n - 1]: on return from the inversion loop
    [new_order[(order[k] + n) % n]] is [k] for every [k]; inverting twice
    gives the permutation back, as the order with every entry replaced by
    the axis it stands for, which is the order itself when no entry is
    negative, and which transposes every sequence as the order does; and
    transposing a sequence of length [n] by the order and then by its inverse
    gives the sequence back.  (The length of a vector is below 2^63.) *)
Theorem transpose_order_inversion {A} `{Inhabited A}
    (order : list Z) (s : list A) :
  valid_permutation order ->
  (Z.of_nat (length order) < 2 ^ 63)%Z ->
  length s = length order ->
  (forall (k : nat) o,
     order !! k = Some o ->
     invert_order order
       !! Z.to_nat ((o + Z.of_nat (length order)) mod Z.of_nat (length order))
     = Some (Z.of_nat k))
  /\ invert_order (invert_order order) = axis (length order) <$> order
  /\ (Forall (fun o => (0 <= o)%Z) order ->
      invert_order (invert_order order) = order)
  /\ (forall s' : list A,
        transpose_axes (invert_order (invert_order order)) s'
        = transpose_axes order s')
  /\ transpose_axes (invert_order order) (transpose_axes order s) = s.
Proof.
  intros Hvalid Hsize Hlen.
  pose proof (valid_permutation_twice order Hvalid Hsize) as Htwice.
  pose proof (valid_permutation_axes order Hvalid) as Hax.
  split; [|split; [done|split; [|split]]].
  - intros k o Hk. fold (axis (length order) o).
    rewrite <- (valid_permutation_index order Hvalid Hsize)
      by by eapply list_elem_of_lookup_2.
    apply invert_order_lookup; [|done].
    by apply valid_permutation_NoDup.
  - intros Hpos. rewrite Htwice.
    transitivity (id <$> order); [|apply list_fmap_id].
    apply list_fmap_ext. intros j o Ho. simpl. apply axis_small.
    assert (o ∈ order) as Hin by by eapply list_elem_of_lookup_2.
    destruct Hvalid as [Hrange _].
    pose proof (proj1 (Forall_forall _ _) Hrange o Hin).
    pose proof (proj1 (Forall_forall _ _) Hpos o Hin). simpl in *. lia.
  - intros s'. rewrite Htwice. apply transpose_axes_normalised.
  - rewrite <- (transpose_axes_normalised order s).
    rewrite (valid_permutation_invert order Hvalid Hsize).
    assert (Z.of_nat (length (axis (length order) <$> order)) < 2 ^ 63)%Z
      as Hsize' by by rewrite length_fmap.
    rewrite (transpose_axes_valid_order _ s Hax).
    rewrite transpose_axes_valid_order by by apply invert_order_valid.
    apply transpose_by_inverse; [done|done|]. by rewrite length_fmap.
Qed.

Lemma transpose_order_inversion_witness :
  (forall (k : nat) o,
     [1; -1; 0]%Z !! k = Some o ->
     invert_order [1; -1; 0]%Z
       !! Z.to_nat ((o + Z.of_nat (length [1; -1; 0]%Z))
                    mod Z.of_nat (length [1; -1; 0]%Z))
     = Some (Z.of_nat k))
  /\ invert_order (invert_order [1; -1; 0]%Z)
     = axis (length [1; -1; 0]%Z) <$> [1; -1; 0]%Z
  /\ (Forall (fun o => (0 <= o)%Z) [1; -1; 0]%Z ->
      invert_order (invert_order [1; -1; 0]%Z) = [1; -1; 0]%Z)
  /\ (forall s' : list string,
        transpose_axes (invert_order (invert_order [1; -1; 0]%Z)) s'
        = transpose_axes [1; -1; 0]%Z s')
  /\ transpose_axes (invert_order [1; -1; 0]%Z)
       (transpose_axes [1; -1; 0]%Z ["a"; "b"; "c"])
     = ["a"; "b"; "c"].
Proof.
  apply (transpose_order_inversion [1; -1; 0]%Z ["a"; "b"; "c"]).
  - split.
    + repeat constructor; simpl; lia.
    + change (axis (length [1; -1; 0]%Z) <$> [1; -1; 0]%Z)
        with [1; 2; 0]%Z.
      change (seqZ 0 (Z.of_nat (length [1; -1; 0]%Z))) with [0; 1; 2]%Z.
      etrans; [apply Permutation_skip, Permutation_swap|].
      apply Permutation_swap.
  - simpl. lia.
  - reflexivity.
Defined.

(** The inverse of [1, -1, 0], and what a loop that took the entries as they
    are, without the [(order[k] + n) % n], could not give: the entry [-1] is
    written at position 2. *)
Lemma invert_order_with_negative_entry :
  invert_order [1; -1; 0]%Z = [2; 0; 1]%Z
  /\ invert_order [-1; -2; -3]%Z = [2; 1; 0]%Z.
Proof. by vm_compute. Qed.
